(** * Company-name extraction core of [main.py]

    A shallow embedding of the extraction core of the job scraper
    ([clean_company_name], [looks_like_noise], [dedupe_preserve_order], the
    three per-site extractors and the dispatcher [extract_company_names]),
    with the properties its specification states about them.

    - Python [str] values are lists of 8-bit characters, read as the code
      points U+0000..U+00FF; Python's classification of these code points
      (whitespace, case, digits, word characters) is written out.
    - The regular expressions are run by a backtracking matcher with the
      order of choices of [re].
    - Exceptions are values: a function that can raise returns [exc].
    - BeautifulSoup, the file system and the iteration order of a [set]
      are taken as interfaces ([Soup], [Host]); the theorems hold for every
      instance, and the examples use the instances of [Fixture].  The
      parser may raise on a markup, and no extractor catches that. *)

From Stdlib Require Import Ascii String.
From stdpp Require Import gmap strings list sorting.

Local Open Scope list_scope.
#[local] Set Warnings "-clear-no-such-hyp".

(** ** Python strings *)

Module Py.

Definition str := list ascii.

(** A literal of the source. *)
Definition lit (s : string) : str := list_ascii_of_string s.

Definition code (c : ascii) : nat := nat_of_ascii c.

(** [str.isspace] on one code point below 256: TAB..CR, FS..US, SPACE,
    NEL (U+0085) and NBSP (U+00A0). *)
Definition isspace (c : ascii) : bool :=
  let n := code c in
  ((9 <=? n) && (n <=? 13)) || ((28 <=? n) && (n <=? 32))
  || (n =? 133) || (n =? 160).

(** [str.lower] on one code point below 256: A-Z, and the Latin-1 capitals
    U+00C0..U+00DE other than the multiplication sign U+00D7. *)
Definition lower_char (c : ascii) : ascii :=
  let n := code c in
  if ((65 <=? n) && (n <=? 90))
     || ((192 <=? n) && (n <=? 222) && negb (n =? 215))
  then ascii_of_nat (n + 32) else c.

(** [s.lower()] *)
Definition lower (s : str) : str := map lower_char s.

(** [s.lstrip(chars)], [s.rstrip(chars)], [s.strip(chars)] for a set of
    characters given as a predicate. *)
Fixpoint lstrip_by (p : ascii -> bool) (s : str) : str :=
  match s with
  | [] => []
  | c :: s' => if p c then lstrip_by p s' else s
  end.

Definition rstrip_by (p : ascii -> bool) (s : str) : str :=
  rev (lstrip_by p (rev s)).

Definition strip_by (p : ascii -> bool) (s : str) : str :=
  rstrip_by p (lstrip_by p s).

(** [s.strip()] *)
Definition strip (s : str) : str := strip_by isspace s.

(** [c in chars] for a single character. *)
Definition char_in (chars : str) (c : ascii) : bool :=
  existsb (fun d => Ascii.eqb d c) chars.

(** [s.strip(chars)] *)
Definition strip_chars (chars : str) (s : str) : str :=
  strip_by (char_in chars) s.

(** [s.startswith(p)] *)
Fixpoint startswith (p s : str) : bool :=
  match p, s with
  | [], _ => true
  | _ :: _, [] => false
  | a :: p', c :: s' => Ascii.eqb a c && startswith p' s'
  end.

(** [p in s] for strings. *)
Fixpoint contains (p s : str) : bool :=
  startswith p s ||
  match s with
  | [] => false
  | _ :: s' => contains p s'
  end.

(** [s.split(sep)] for a non-empty separator: the pieces between the
    non-overlapping occurrences of [sep], found from the left.  [cur] holds
    the piece being read, reversed; [skip] counts the characters of an
    occurrence of [sep] still to pass over. *)
Fixpoint split_go (sep : str) (s : str) (cur : str) (skip : nat) : list str :=
  match s with
  | [] => [rev cur]
  | c :: s' =>
      match skip with
      | S k => split_go sep s' cur k
      | O =>
          if startswith sep s
          then rev cur :: split_go sep s' [] (length sep - 1)
          else split_go sep s' (c :: cur) 0
      end
  end.

Definition split (sep : str) (s : str) : list str := split_go sep s [] 0.

(** Truthiness of a string or a list: [if s]. *)
Definition truthy {A : Type} (s : list A) : bool :=
  match s with [] => false | _ => true end.

End Py.

Import Py.


(** ** Regular expressions

    The backtracking matcher of Python's [re] for the constructs the source
    uses: character classes, sequence, alternation (leftmost alternative
    first), greedy and lazy repetition of a character class, [$] and [\b].
    A match is tried with a continuation, so that a later failure backtracks
    into the earlier choices in the order [re] tries them. *)

Module Re.

Inductive re : Type :=
| Eps                                   (* the empty pattern *)
| Chr (p : ascii -> bool)               (* one character of a class *)
| Seq (r1 r2 : re)
| Alt (r1 r2 : re)                      (* r1|r2 *)
| Rep (greedy : bool) (p : ascii -> bool)   (* p* when greedy, p*? otherwise *)
| Eol                                   (* $ *)
| Wordb.                                (* \b *)

(** [\s], [\d], [.], and the word characters that [\b] looks at, for code
    points below 256 of a [str] pattern. *)
Definition space : ascii -> bool := isspace.

Definition digit (c : ascii) : bool :=
  let n := code c in (48 <=? n) && (n <=? 57).

Definition dot (c : ascii) : bool := negb (code c =? 10).

Definition ascii_letter (c : ascii) : bool :=
  let n := code c in
  ((65 <=? n) && (n <=? 90)) || ((97 <=? n) && (n <=? 122)).

Definition word (c : ascii) : bool :=
  let n := code c in
  digit c || ascii_letter c || (n =? 95)
  || (n =? 170) || (n =? 178) || (n =? 179) || (n =? 181) || (n =? 185)
  || (n =? 186) || ((188 <=? n) && (n <=? 190))
  || ((192 <=? n) && (n <=? 214)) || ((216 <=? n) && (n <=? 246))
  || (248 <=? n).

(** A literal character, and the same under [re.I]: below U+0100 a letter
    of the pattern matches its two cases and nothing else. *)
Definition is_char (a : ascii) : ascii -> bool := fun c => Ascii.eqb a c.
Definition is_char_i (a : ascii) : ascii -> bool :=
  fun c => Ascii.eqb (lower_char a) (lower_char c).

Fixpoint seqs (rs : list re) : re :=
  match rs with
  | [] => Eps
  | [r] => r
  | r :: rs' => Seq r (seqs rs')
  end.

Fixpoint alts (rs : list re) : re :=
  match rs with
  | [] => Chr (fun _ => false)
  | [r] => r
  | r :: rs' => Alt r (alts rs')
  end.

(** A literal string, and the same under [re.I]. *)
Definition text (s : string) : re :=
  seqs (map (fun a => Chr (is_char a)) (lit s)).
Definition text_i (s : string) : re :=
  seqs (map (fun a => Chr (is_char_i a)) (lit s)).

(** [p+], [r?] and [p{3,}]. *)
Definition plus (p : ascii -> bool) : re := Seq (Chr p) (Rep true p).
Definition opt (r : re) : re := Alt r Eps.
Definition at_least3 (p : ascii -> bool) : re :=
  Seq (Chr p) (Seq (Chr p) (Seq (Chr p) (Rep true p))).

Section Matcher.
Context {A : Type}.

(** The continuation receives the character before the position reached
    and the text that remains. *)
Definition cont := option ascii -> str -> option A.

Fixpoint rep_greedy (p : ascii -> bool) (prev : option ascii) (s : str)
    (k : cont) : option A :=
  match s with
  | c :: s' =>
      if p c then
        match rep_greedy p (Some c) s' k with
        | Some x => Some x
        | None => k prev s
        end
      else k prev s
  | [] => k prev s
  end.

Fixpoint rep_lazy (p : ascii -> bool) (prev : option ascii) (s : str)
    (k : cont) : option A :=
  match k prev s with
  | Some x => Some x
  | None =>
      match s with
      | c :: s' => if p c then rep_lazy p (Some c) s' k else None
      | [] => None
      end
  end.

Definition is_word (c : option ascii) : bool :=
  match c with Some c => word c | None => false end.

(** [$]: at the end, or before a newline that ends the text. *)
Definition at_eol (s : str) : bool :=
  match s with
  | [] => true
  | [c] => code c =? 10
  | _ => false
  end.

Fixpoint m (r : re) (prev : option ascii) (s : str) (k : cont) : option A :=
  match r with
  | Eps => k prev s
  | Chr p =>
      match s with
      | c :: s' => if p c then k (Some c) s' else None
      | [] => None
      end
  | Seq r1 r2 => m r1 prev s (fun prev' s' => m r2 prev' s' k)
  | Alt r1 r2 =>
      match m r1 prev s k with
      | Some x => Some x
      | None => m r2 prev s k
      end
  | Rep true p => rep_greedy p prev s k
  | Rep false p => rep_lazy p prev s k
  | Eol => if at_eol s then k prev s else None
  | Wordb => if xorb (is_word prev) (is_word (head s)) then k prev s else None
  end.
End Matcher.

(** The text left after the match that [re] finds at this position. *)
Definition match_at (r : re) (prev : option ascii) (s : str) : option str :=
  m r prev s (fun _ rest => Some rest).

(** [re.search(r, s)] as a truth value: is there a match at some position,
    tried from the left. *)
Fixpoint search_from (r : re) (prev : option ascii) (s : str) : bool :=
  match match_at r prev s with
  | Some _ => true
  | None =>
      match s with
      | [] => false
      | c :: s' => search_from r (Some c) s'
      end
  end.

Definition search (r : re) (s : str) : bool := search_from r None s.

(** [re.sub(r, repl, s)] for a replacement without group references: the
    matches are taken from the left without overlap; [skip] counts the
    characters of the current match still to pass over.  An empty match
    puts the replacement before the character at its position. *)
Fixpoint sub_go (r : re) (repl : str) (prev : option ascii) (s : str)
    (skip : nat) {struct s} : str :=
  match skip, s with
  | S k, c :: s' => sub_go r repl (Some c) s' k
  | S k, [] => []
  | O, _ =>
      match match_at r prev s with
      | Some rest =>
          match length s - length rest with
          | O => repl ++ match s with
                         | [] => []
                         | c :: s' => c :: sub_go r repl (Some c) s' 0
                         end
          | S n => repl ++ match s with
                           | [] => []
                           | c :: s' => sub_go r repl (Some c) s' n
                           end
          end
      | None =>
          match s with
          | [] => []
          | c :: s' => c :: sub_go r repl (Some c) s' 0
          end
      end
  end.

Definition sub (r : re) (repl : str) (s : str) : str := sub_go r repl None s 0.

(** [re.split(r, s)] for a pattern without groups that matches at least one
    character wherever it matches. *)
Fixpoint split_go (r : re) (prev : option ascii) (s : str) (cur : str)
    (skip : nat) {struct s} : list str :=
  match s with
  | [] => [rev cur]
  | c :: s' =>
      match skip with
      | S k => split_go r (Some c) s' cur k
      | O =>
          match match_at r prev s with
          | Some rest =>
              match length s - length rest with
              | O => split_go r (Some c) s' (c :: cur) 0
              | S n => rev cur :: split_go r (Some c) s' [] n
              end
          | None => split_go r (Some c) s' (c :: cur) 0
          end
      end
  end.

Definition split (r : re) (s : str) : list str := split_go r None s [] 0.

End Re.

(** ** The patterns of the source *)

Module Pat.
Import Re.

(** [\s+] *)
Definition spaces : re := plus space.

Definition site_brand : re :=
  alts [text_i "LinkedIn"; text_i "Indeed"; text_i "Glassdoor"; text_i "Monster"].

(** [\s*\|\s*(LinkedIn|Indeed|Glassdoor|Monster).*?$] with [re.I] *)
Definition brand_suffix : re :=
  seqs [Rep true space; Chr (is_char "|"%char); Rep true space; site_brand;
        Rep false dot; Eol].

(** [\b\d+\b.*\bjobs?\b] *)
Definition count_of_jobs : re :=
  seqs [Wordb; plus digit; Wordb; Rep true dot; Wordb; text "job";
        opt (Chr (is_char "s"%char)); Wordb].

(** [\b(apply|hiring|careers?)\b] *)
Definition call_to_action : re :=
  seqs [Wordb;
        alts [text "apply"; text "hiring";
              Seq (text "career") (opt (Chr (is_char "s"%char)))];
        Wordb].

(** [[A-Za-z]{3,}\s] *)
Definition letters_then_space : re :=
  Seq (at_least3 ascii_letter) (Chr space).

(** [jobs-search__results-list] with [re.I] *)
Definition results_list_marker : re := text_i "jobs-search__results-list".

(** [sign in|join now] with [re.I] *)
Definition sign_in_or_join : re := Alt (text_i "sign in") (text_i "join now").

(** [[-|•–—]]: of the five separators only the hyphen and the pipe are
    code points below 256. *)
Definition title_separator : re := Chr (char_in (lit "-|")).

(** [(job|jobs|apply|hiring|careers?)] with [re.I] *)
Definition job_vocabulary : re :=
  alts [text_i "job"; text_i "jobs"; text_i "apply"; text_i "hiring";
        Seq (text_i "career") (opt (Chr (is_char_i "s"%char)))].

(** [indeed] and [linkedin] with [re.I] *)
Definition indeed_token : re := text_i "indeed".
Definition linkedin_token : re := text_i "linkedin".

End Pat.


(** ** Exceptions *)

Inductive error : Type :=
  ValueError | IndexError | KeyError | UnicodeEncodeError.

Inductive exc (A : Type) : Type :=
| Ok (a : A)
| Raise (e : error).
Arguments Ok {A} a.
Arguments Raise {A} e.

Definition bind {A B : Type} (x : exc A) (f : A -> exc B) : exc B :=
  match x with
  | Ok a => f a
  | Raise e => Raise e
  end.

Notation "x <- e1 ;; e2" := (bind e1 (fun x => e2))
  (at level 100, e1 at next level, right associativity).

(** [try: body except Exception: handler] *)
Definition try_except {A : Type} (body : exc A) (handler : A) : A :=
  match body with
  | Ok a => a
  | Raise _ => handler
  end.

(** [l[i]] *)
Definition index {A : Type} (l : list A) (i : nat) : exc A :=
  match l !! i with
  | Some a => Ok a
  | None => Raise IndexError
  end.

(** ** What the core takes from its libraries and its host *)

(** The part of the BeautifulSoup interface that the extractors call.  The
    constructor raises on a markup that the parser cannot take: lxml raises
    [UnicodeEncodeError] on a str that holds a lone surrogate.  A [Tag] is
    always truthy, so [if el] only asks whether it is [None]. *)
Class Soup (doc elem : Type) : Type := {
  BeautifulSoup : str -> exc doc;            (* BeautifulSoup(html, "lxml") *)
  soup_select : doc -> str -> list elem;     (* soup.select(selector) *)
  select_one : elem -> str -> option elem;   (* el.select_one(selector) *)
  get_text : elem -> str;                    (* el.get_text(strip=True) *)
  soup_title : doc -> option elem;           (* soup.title *)
  soup_find_meta : doc -> str -> str -> option elem;
                                   (* soup.find("meta", attrs={key: value}) *)
  get : elem -> str -> option str            (* el.get(name) *)
}.

(** The file system, the checks of [urlsplit] that are not modelled, and
    the order in which a [set] of strings is iterated (any order, each
    element once). *)
Class Host : Type := {
  path_exists : str -> bool;                 (* os.path.exists(path) *)
  netloc_check_raises : str -> bool;
  set_iter : gset str -> list str;
  set_iter_perm : forall X : gset str, set_iter X ≡ₚ elements X
}.

(** ** urllib.parse *)

Module Url.

Definition scheme_char (c : ascii) : bool :=
  Re.ascii_letter c || Re.digit c || char_in (lit "+-.") c.

(** [s.find(c)] with [None] for -1. *)
Fixpoint find (p : ascii -> bool) (s : str) : option nat :=
  match s with
  | [] => None
  | c :: s' => if p c then Some 0 else S <$> find p s'
  end.

(** The text after the scheme, when [urlsplit] finds one. *)
Definition drop_scheme (url : str) : str :=
  match find (Re.is_char ":"%char) url, url with
  | Some (S i), c :: _ =>
      if Re.ascii_letter c && forallb scheme_char (take (S i) url)
      then drop (S (S i)) url else url
  | _, _ => url
  end.

(** [_splitnetloc(url, 2)], first component. *)
Definition splitnetloc (url : str) : str :=
  let rest := drop 2 url in
  match find (char_in (lit "/?#")) rest with
  | Some i => take i rest
  | None => rest
  end.

Definition isascii (s : str) : bool := forallb (fun c => code c <? 128) s.

(** [urlparse(url).netloc], after CPython 3.11's [urlsplit].  The checks of
    a bracketed host and of the NFKC form of a non-ASCII host are left to
    [netloc_check_raises]. *)
Definition netloc `{Host} (url : str) : exc str :=
  let url := lstrip_by (fun c => code c <=? 32) url in
  let unsafe := [ascii_of_nat 9; ascii_of_nat 13; ascii_of_nat 10] in
  let url := List.filter (fun c => negb (char_in unsafe c)) url in
  let url := drop_scheme url in
  if startswith (lit "//") url then
    let n := splitnetloc url in
    let lb := char_in n "["%char in
    let rb := char_in n "]"%char in
    if xorb lb rb then Raise ValueError
    else if ((lb && rb) || (truthy n && negb (isascii n)))
            && netloc_check_raises n
    then Raise ValueError
    else Ok n
  else Ok [].

End Url.

(** ** The extraction core *)

(** The provenance labels that the extractors return. *)
Inductive Provenance : Type :=
| indeed | linkedin_list | linkedin_fallback | generic.

Definition label_of (p : Provenance) : string :=
  match p with
  | indeed => "indeed"
  | linkedin_list => "linkedin_list"
  | linkedin_fallback => "linkedin_fallback"
  | generic => "generic"
  end.

#[global] Instance Provenance_eq_dec : EqDecision Provenance.
Proof. solve_decision. Defined.

(** The characters of [" -|\n\t\r"]. *)
Definition separators : str :=
  [" "; "-"; "|"; ascii_of_nat 10; ascii_of_nat 9; ascii_of_nat 13]%char.

Section Core.
Context {doc elem : Type} `{!Soup doc elem} `{!Host}.

(** [is_local_path] *)
Definition is_local_path (u : str) : bool :=
  if startswith (lit "file://") (lower u) then true
  else if negb (contains (lit "://") u) && path_exists u then true
  else false.

(** [domain] *)
Definition domain (u : str) : str :=
  try_except
    (n <- Url.netloc u ;;
     let d := lower n in
     Ok (if startswith (lit "www.") d then drop 4 d else d))
    [].

(** [clean_company_name] *)
Definition clean_company_name (s : str) : str :=
  let s := strip_chars separators (Re.sub Pat.spaces (lit " ") s) in
  let s := Re.sub Pat.brand_suffix [] s in
  strip s.

(** [looks_like_noise] *)
Definition looks_like_noise (name : str) : bool :=
  let n := strip name in
  if length n <? 2 then true
  else
    let low := lower n in
    if contains (lit "jobs in") low then true
    else if Re.search Pat.count_of_jobs low then true
    else if Re.search Pat.call_to_action low
            && negb (Re.search Pat.letters_then_space low) then true
    else false.

(** [dedupe_preserve_order]: the loop, with its two variables. *)
Fixpoint dedupe_loop (items : list str) (seen : gset str) (out : list str)
    : list str :=
  match items with
  | [] => out
  | x :: items' =>
      let k := strip (lower x) in
      if negb (truthy k) || bool_decide (k ∈ seen)
      then dedupe_loop items' seen out
      else dedupe_loop items' ({[k]} ∪ seen) (out ++ [strip x])
  end.

Definition dedupe_preserve_order (items : list str) : list str :=
  dedupe_loop items ∅ [].

(** [el.get_text(strip=True)] of an element that may be [None], with the
    empty string when there is no element: the test
    [el and el.get_text(strip=True)]. *)
Definition text_of (el : option elem) : str :=
  match el with
  | Some e => get_text e
  | None => []
  end.

(** The first selector of the list that finds non-empty text in the
    card: the inner [for sel in [...]] with its [break]. *)
Fixpoint first_text (card : elem) (sels : list string) : list str :=
  match sels with
  | [] => []
  | sel :: sels' =>
      let txt := text_of (select_one card (lit sel)) in
      if truthy txt then [clean_company_name txt]
      else first_text card sels'
  end.

(** The title fallback shared by the Indeed and LinkedIn extractors. *)
Definition title_text (soup : doc) : str := text_of (soup_title soup).

Definition second_segment (names : list str) (title : str)
    : exc (list str) :=
  if truthy title then
    let parts :=
      List.filter truthy (map strip (Py.split (lit " - ") title)) in
    if 2 <=? length parts then
      p <- index parts 1 ;;
      Ok (names ++ [clean_company_name p])
    else Ok names
  else Ok names.

(** [extract_from_indeed], up to the list [names] before finalizing. *)
Definition indeed_card (card : elem) : list str :=
  let c1 := text_of (select_one card (lit ".companyName")) in
  if truthy c1 then [clean_company_name c1]
  else first_text card
         ["[data-testid='company-name']"; ".companyInfo span";
          ".companyInfo a"; ".company_location .companyName"]%string.

Definition indeed_detail_selectors : list string :=
  [".jobsearch-CompanyInfoContainer a[data-tn-element='companyName']";
   "#companyInfo a";
   "[data-company-name]";
   ".icl-u-lg-mr--sm.icl-u-xs-mr--xs";
   ".jobsearch-CompanyInfoWithoutHeaderImage div a";
   ".jobsearch-InlineCompanyRating div"]%string.

(** [for el in soup.select(sel): txt = ...; if txt: names.append(...)] *)
Definition append_texts (soup : doc) (keep : str -> bool)
    (names : list str) (sel : string) : list str :=
  fold_left
    (fun names el =>
       let txt := get_text el in
       if truthy txt && keep txt then names ++ [clean_company_name txt]
       else names)
    (soup_select soup (lit sel)) names.

Definition indeed_names (soup : doc) : exc (list str) :=
  let names : list str := [] in
  let names :=
    fold_left (fun names card => names ++ indeed_card card)
      (soup_select soup
         (lit "[data-jk], .job_seen_beacon, .resultContent, .tapItem, .slider_container"))
      names in
  let names :=
    fold_left (append_texts soup (fun _ => true)) indeed_detail_selectors
      names in
  second_segment names (title_text soup).

Definition extract_from_indeed (html : str) : exc (list str * Provenance) :=
  soup <- BeautifulSoup html ;;
  names <- indeed_names soup ;;
  let names :=
    List.filter (fun n => truthy n && negb (looks_like_noise n)) names in
  Ok (dedupe_preserve_order names, indeed).

(** [linkedin_jobs_list_names] *)
Definition linkedin_card (li : elem) : list str :=
  let a := text_of (select_one li
             (lit "h4.base-search-card__subtitle a, .base-search-card__subtitle a")) in
  if truthy a then [clean_company_name a]
  else
    let h4 := text_of (select_one li (lit "h4.base-search-card__subtitle")) in
    if truthy h4 then [clean_company_name h4]
    else
      let alt := text_of (select_one li
                   (lit ".job-card-container__primary-description, .job-card-container__company-name")) in
      if truthy alt then [clean_company_name alt]
      else [].

Definition is_linkedin_name (n : str) : bool :=
  truthy n
  && negb (bool_decide (lower n = lit "linkedin"))
  && negb (looks_like_noise n).

Definition linkedin_jobs_list_names (soup : doc) : list str :=
  let names :=
    fold_left (fun names li => names ++ linkedin_card li)
      (soup_select soup (lit "ul.jobs-search__results-list li")) [] in
  List.filter is_linkedin_name names.

(** [is_linkedin_search_page] *)
Definition is_linkedin_search_page (url html : str) : bool :=
  if negb (contains (lit "linkedin.com") (domain url)) then false
  else if contains (lit "/jobs/search") url then true
  else if Re.search Pat.results_list_marker html then true
  else false.

(** [m.get(name)] as the condition of an [if]: [None] counts as empty. *)
Definition or_empty (v : option str) : str :=
  match v with
  | Some c => c
  | None => []
  end.

(** One meta tag of [extract_from_linkedin]. *)
Definition append_meta (soup : doc) (names : list str) (meta_name : string)
    : exc (list str) :=
  let m :=
    match soup_find_meta soup (lit "property") (lit meta_name) with
    | Some m => Some m
    | None => soup_find_meta soup (lit "name") (lit meta_name)
    end in
  match m with
  | Some m =>
      if truthy (or_empty (get m (lit "content"))) then
        c <- match get m (lit "content") with
             | Some c => Ok c
             | None => Raise KeyError
             end ;;
        let content := clean_company_name c in
        let parts :=
          List.filter truthy (map strip (Py.split (lit " - ") content)) in
        if 2 <=? length parts then
          p <- index parts 1 ;;
          Ok (names ++ [clean_company_name p])
        else Ok names
      else Ok names
  | None => Ok names
  end.

Definition linkedin_detail_selectors : list string :=
  ["a.topcard__org-name-link"; "a.topcard__flavor"; "a[href*='/company/']";
   "span.topcard__flavor"]%string.

(** The fallback cascade of [extract_from_linkedin], up to the list
    [names] before finalizing. *)
Definition linkedin_names (soup : doc) : exc (list str) :=
  let names : list str := [] in
  let names :=
    fold_left (fun names n => names ++ [n])
      (linkedin_jobs_list_names soup) names in
  let names :=
    fold_left
      (append_texts soup (fun txt => negb (Re.search Pat.sign_in_or_join txt)))
      linkedin_detail_selectors names in
  names <- append_meta soup names "og:title" ;;
  names <- append_meta soup names "twitter:title" ;;
  second_segment names (title_text soup).

(** [extract_from_linkedin] *)
Definition extract_from_linkedin (html url : str)
    : exc (list str * Provenance) :=
  soup <- BeautifulSoup html ;;
  let fallbacks :=
    names <- linkedin_names soup ;;
    let names := List.filter is_linkedin_name names in
    Ok (dedupe_preserve_order names, linkedin_fallback) in
  if is_linkedin_search_page url html then
    let list_names := linkedin_jobs_list_names soup in
    if truthy list_names
    then Ok (dedupe_preserve_order list_names, linkedin_list)
    else fallbacks
  else fallbacks.

(** [extract_generic] *)
Definition generic_names (soup : doc) : gset str :=
  let names : gset str := ∅ in
  let title := title_text soup in
  if truthy title then
    let parts :=
      List.filter truthy (map strip (Re.split Pat.title_separator title)) in
    fold_left
      (fun names p =>
         if negb (Re.search Pat.job_vocabulary p)
         then {[clean_company_name p]} ∪ names else names)
      parts names
  else names.

Definition extract_generic (html : str) : exc (list str * Provenance) :=
  soup <- BeautifulSoup html ;;
  let names := generic_names soup in
  let names :=
    List.filter (fun n => negb (looks_like_noise n)) (set_iter names) in
  Ok (dedupe_preserve_order names, generic).

(** [extract_company_names] *)
Definition extract_company_names (url html : str)
    : exc (list str * Provenance) :=
  let d := domain url in
  if contains (lit "indeed") d then extract_from_indeed html
  else if contains (lit "linkedin") d then extract_from_linkedin html url
  else if is_local_path url then
    if Re.search Pat.indeed_token html then extract_from_indeed html
    else if Re.search Pat.linkedin_token html
    then extract_from_linkedin html url
    else extract_generic html
  else extract_generic html.

End Core.

(** ** Documents for the examples

    A document and its elements, presented by the answers they give to the
    queries of the extractors, and a parser that knows the documents of the
    examples by their markup. *)

Module Fixture.

(** An element: the strings below it, its attributes, and for each
    selector that finds something inside it, the strings below the first
    element found. *)
Inductive Tag : Type :=
| mkTag (strings : list string) (attrs : list (string * string))
        (found : list (string * list string)).

Record Page : Type := mkPage {
  page_select : list (string * list Tag);
  page_title : option Tag;
  page_meta : list (string * string * Tag)
}.

Definition same (a : string) (b : str) : bool := bool_decide (lit a = b).

Fixpoint assoc {V : Type} (l : list (string * V)) (k : str) : option V :=
  match l with
  | [] => None
  | (a, v) :: l' => if same a k then Some v else assoc l' k
  end.

(** [get_text(strip=True)]: the strings below the element, each stripped,
    the empty ones left out, joined. *)
Definition tag_text (t : Tag) : str :=
  match t with
  | mkTag strings _ _ =>
      concat (List.filter truthy (map (fun s => strip (lit s)) strings))
  end.

Definition tag_select_one (t : Tag) (sel : str) : option Tag :=
  match t with
  | mkTag _ _ found => (fun strings => mkTag strings [] []) <$> assoc found sel
  end.

Definition tag_get (t : Tag) (name : str) : option str :=
  match t with mkTag _ attrs _ => lit <$> assoc attrs name end.

Definition page_find_meta (p : Page) (key value : str) : option Tag :=
  snd <$> List.find
            (fun e => same (fst (fst e)) key && same (snd (fst e)) value)
            (page_meta p).

Definition empty_page : Page := mkPage [] None [].

(** The strings of this development hold code points below 256.  A lone
    surrogate, which they cannot hold, is written by its escape, as in a
    Python literal. *)
Definition lone_surrogate : string := "\ud800".

(** The parser: it raises on a markup with a lone surrogate, as lxml does;
    a known markup gives its document, any other markup the document
    without elements. *)
Definition parse (known : list (string * Page)) (html : str) : exc Page :=
  if contains (lit lone_surrogate) html then Raise UnicodeEncodeError
  else
    Ok (match assoc known html with
        | Some page => page
        | None => empty_page
        end).

Definition fixture_soup (known : list (string * Page)) : Soup Page Tag := {|
  BeautifulSoup := parse known;
  soup_select := fun p sel =>
    match assoc (page_select p) sel with
    | Some els => els
    | None => []
    end;
  select_one := tag_select_one;
  get_text := tag_text;
  soup_title := page_title;
  soup_find_meta := page_find_meta;
  get := tag_get
|}.

(** A host with the given files, whose sets are iterated in the order of
    [elements], or in the reverse order. *)
Definition fixture_host (files : list string) (reversed : bool) : Host := {|
  path_exists := fun p => existsb (fun f => same f p) files;
  netloc_check_raises := fun _ => false;
  set_iter := fun X => if reversed then rev (elements X) else elements X;
  set_iter_perm := fun X =>
    match reversed as b
      return (if b then rev (elements X) else elements X) ≡ₚ elements X
    with
    | true => Permutation_sym (Permutation_rev (elements X))
    | false => Permutation_refl (elements X)
    end
|}.

Definition text_tag (s : string) : Tag := mkTag [s] [] [].

(** A page that has a title and nothing else. *)
Definition title_markup (t : string) : string :=
  ("<html><head><title>" ++ t ++ "</title></head><body></body></html>")%string.

Definition title_page (t : string) : Page :=
  mkPage [] (Some (text_tag t)) [].

Definition titled (t : string) : list (string * Page) :=
  [(title_markup t, title_page t)].

(** A search page saved from the browser: its path and its markup. *)
Definition saved_search : string :=
  "C:\Users\me\Downloads\linkedin_search.html".

Definition saved_markup : string :=
  "<html><body><ul class='jobs-search__results-list'><li><h4 class='base-search-card__subtitle'><a>Acme Corp</a></h4></li></ul></body></html>".

(** A search page with one result card, whose company link reads
    [Acme Corp], and with a top card and a title that name another
    company. *)
Definition results_markup : string :=
  "<html><head><title>Machinist - Globex Inc | LinkedIn</title></head><body><ul class='jobs-search__results-list'><li><h3>Machinist</h3><h4 class='base-search-card__subtitle'><a>Acme Corp</a></h4></li></ul><a class='topcard__org-name-link'>Globex Inc</a></body></html>".

Definition results_page : Page :=
  mkPage
    [("ul.jobs-search__results-list li",
      [mkTag ["Machinist"; "Acme Corp"] []
         [("h4.base-search-card__subtitle a, .base-search-card__subtitle a",
           ["Acme Corp"])]]);
     ("a.topcard__org-name-link", [mkTag ["Globex Inc"] [] []])]
    (Some (text_tag "Machinist - Globex Inc | LinkedIn"))
    [].

(** A job page of Indeed whose company link reads
    ["  Acme   Corp  | Indeed"]. *)
Definition company_markup : string :=
  "<html><body><div id='companyInfo'><a>  Acme   Corp  | Indeed</a></div></body></html>".

Definition company_page : Page :=
  mkPage [("#companyInfo a", [text_tag "  Acme   Corp  | Indeed"])] None [].

End Fixture.

Import Fixture.

(** ** Auxiliary definitions for the proofs *)

(** The key of [dedupe_preserve_order]: [x.lower().strip()]. *)
Definition key (x : str) : str := strip (lower x).

(** The output of the loop of [dedupe_preserve_order] from a given [seen],
    as a function of the items alone. *)
Fixpoint kept (seen : gset str) (items : list str) : list str :=
  match items with
  | [] => []
  | x :: items' =>
      if negb (truthy (key x)) || bool_decide (key x ∈ seen)
      then kept seen items'
      else strip x :: kept ({[key x]} ∪ seen) items'
  end.

(** The non-empty keys of a list, as a set. *)
Definition keys (items : list str) : gset str :=
  list_to_set (List.filter truthy (map key items)).

(** [re.sub(r"\s+", " ", s)] read directly: [inside] tells whether the
    character before was whitespace. *)
Fixpoint collapse (inside : bool) (s : str) : str :=
  match s with
  | [] => []
  | c :: s' =>
      if isspace c
      then if inside then collapse true s' else " "%char :: collapse true s'
      else c :: collapse false s'
  end.

Definition starts_space (s : str) : bool :=
  match s with
  | c :: _ => isspace c
  | [] => false
  end.

(** No whitespace but single spaces, each followed by no whitespace. *)
Fixpoint collapsed (s : str) : bool :=
  match s with
  | [] => true
  | c :: s' =>
      (if isspace c then Ascii.eqb c " " && negb (starts_space s') else true)
      && collapsed s'
  end.

Definition brands : list string :=
  ["LinkedIn"; "Indeed"; "Glassdoor"; "Monster"]%string.

(** [s] starts with [p], case aside. *)
Definition startswith_i (p : string) (s : str) : bool :=
  startswith (lower (lit p)) (lower s).

(** A site brand begins here, after optional whitespace, a pipe and
    optional whitespace: where [brand_suffix] matches. *)
Definition brand_starts (s : str) : bool :=
  match lstrip_by isspace s with
  | c :: t =>
      Re.is_char "|" c
      && existsb (fun b => startswith_i b (lstrip_by isspace t)) brands
  | [] => false
  end.

(** The text before the first place where a site brand begins. *)
Fixpoint cut (s : str) : str :=
  match s with
  | [] => []
  | c :: s' => if brand_starts s then [] else c :: cut s'
  end.

(** No site brand begins anywhere in the text. *)
Fixpoint brand_free (s : str) : bool :=
  match s with
  | [] => true
  | _ :: s' => negb (brand_starts s) && brand_free s'
  end.

(** The number of whitespace characters at the start. *)
Fixpoint run (s : str) : nat :=
  match s with
  | c :: s' => if isspace c then S (run s') else 0
  | [] => 0
  end.

(** The pattern has no [\b]: it does not look at the character before. *)
Fixpoint no_wordb (r : Re.re) : bool :=
  match r with
  | Re.Seq r1 r2 | Re.Alt r1 r2 => no_wordb r1 && no_wordb r2
  | Re.Wordb => false
  | _ => true
  end.

(** The end of [brand_suffix]: [.*?$]. *)
Definition to_the_end : Re.re := Re.Seq (Re.Rep false Re.dot) Re.Eol.

(** The continuation does not look at the character before. *)
Definition prev_free {A : Type} (k : @Re.cont A) : Prop :=
  forall a b t, k a t = k b t.

(** The text ends with a hyphen or a pipe. *)
Definition ends_with_separator (s : str) : bool :=
  match rev s with
  | c :: _ => char_in (lit "-|") c
  | [] => false
  end.

(** ** The command line: reading the urls, fetching, and the main loop

    The messages written to the terminal are left out: they do not touch
    the lists that [main] builds and writes, and writing them is taken to
    succeed.  Of the pause between two requests, what is kept is whether
    [time.sleep] accepts it. *)

(** [s.replace(old, new)] for a non-empty [old]: the occurrences are taken
    from the left without overlap; [skip] counts the characters of the
    current occurrence still to pass over. *)
Fixpoint replace_go (old new s : str) (skip : nat) : str :=
  match s with
  | [] => []
  | c :: s' =>
      match skip with
      | S k => replace_go old new s' k
      | O =>
          if startswith old s
          then new ++ replace_go old new s' (length old - 1)
          else c :: replace_go old new s' 0
      end
  end.

Definition replace (old new s : str) : str := replace_go old new s 0.

(** What [read_urls] and [fetch] take from the disk and the network.  A
    result [None] stands for a call that raises. *)
Class Files : Type := {
  abspath : str -> str;                     (* os.path.abspath(path) *)
  read_lines : str -> option (list str);    (* the lines of open(path) *)
  read_text : str -> option str;            (* open(path).read() *)
  http_get : str -> option str   (* sess.get(u), raise_for_status(), r.text *)
}.

(** A cell handed to [csv.writer]: a string or a count. *)
Inductive cell : Type :=
| Text (s : str)
| Number (n : nat).

(** The arguments of the command line that [main] reads.  Of [args.sleep],
    a float, [args_sleep_ok] tells whether [time.sleep] accepts it: it
    raises for a negative pause, for NaN and for a pause too long for its
    clock. *)
Record Args : Type := mkArgs {
  args_urls : option (list str);
  args_urls_file : str;
  args_out : str;
  args_report : option str;
  args_sleep_ok : bool;
  args_keep_duplicates : bool;
  args_source_column : bool
}.

(** The three lists of [main]. *)
Record Lists : Type := mkLists {
  all_names : list str;
  enriched_rows : list (str * str * str);
  report_rows : list (str * str * str * nat * str)
}.

(** How [main] ends: [sys.exit(code)], or the files it has written, each
    with its path and its rows. *)
Inductive outcome : Type :=
| Exit (code : nat)
| Wrote (out : str * list (list cell))
        (report : option (str * list (list cell))).

Section Cli.
Context {doc elem : Type} `{!Soup doc elem} `{!Host} `{!Files}.

(** [u.strip()], then [strip] of the double quote, then of the single
    quote. *)
Definition unquote (u : str) : str :=
  strip_chars (lit "'") (strip_chars [ascii_of_nat 34] (strip u)).

(** The pair [(norm, key)] that [read_urls] computes for an entry. *)
Definition norm_key (u : str) : str * str :=
  if negb (contains (lit "://") u) && path_exists u
  then let norm := abspath u in (norm, lit "file:" ++ lower norm)
  else (u, lower u).

(** The second loop of [read_urls], with its two variables. *)
Fixpoint read_urls_loop (collected : list str) (seen : gset str)
    (out : list str) : list str :=
  match collected with
  | [] => out
  | u :: rest =>
      let u := unquote u in
      if negb (truthy u) then read_urls_loop rest seen out
      else
        let '(norm, key) := norm_key u in
        if negb (bool_decide (key ∈ seen))
        then read_urls_loop rest ({[key]} ∪ seen) (out ++ [norm])
        else read_urls_loop rest seen out
  end.

(** [read_urls]; [None] when opening the file of urls raises. *)
Definition read_urls (urls : list str) (urls_file : option str)
    : option (list str) :=
  let collected : list str := [] in
  let collected := if truthy urls then collected ++ urls else collected in
  collected ←
    match urls_file with
    | Some file =>
        if truthy file && path_exists file then
          lines ← read_lines file;
          Some (collected ++ List.filter truthy (map strip lines))
        else Some collected
    | None => Some collected
    end;
  Some (read_urls_loop collected ∅ []).

(** [fetch], without its warnings: the text read, or the empty string when
    reading or the request raises. *)
Definition fetch (u : str) : str :=
  if is_local_path u then
    let path := replace (lit "file://") [] u in
    match read_text path with
    | Some text => text
    | None => []
    end
  else
    match http_get u with
    | Some text => text
    | None => []
    end.

(** [report_rows.append(row)] *)
Definition report (st : Lists) (row : str * str * str * nat * str) : Lists :=
  mkLists (all_names st) (enriched_rows st) (report_rows st ++ [row]).

(** [for n in names: ...] of [main]. *)
Fixpoint add_names (source_column : bool) (extractor : Provenance) (u : str)
    (names : list str) (st : Lists) : exc Lists :=
  match names with
  | [] => Ok st
  | n :: names' =>
      st <- (if source_column then
               src <- index (Py.split (lit "_") (lit (label_of extractor))) 0 ;;
               Ok (mkLists (all_names st) (enriched_rows st ++ [(n, src, u)])
                     (report_rows st))
             else
               Ok (mkLists (all_names st ++ [n]) (enriched_rows st)
                     (report_rows st))) ;;
      add_names source_column extractor u names' st
  end.

(** [time.sleep(args.sleep)] *)
Definition sleep (args : Args) : exc unit :=
  if args_sleep_ok args then Ok tt else Raise ValueError.

(** The body of [for u in targets] of [main]. *)
Definition visit (args : Args) (st : Lists) (u : str) : exc Lists :=
  let html := fetch u in
  if negb (truthy html) then
    Ok (report st (u, domain u, lit "fetch_error", 0, lit "empty_html"))
  else
    r <- extract_company_names u html ;;
    let '(names, extractor) := r in
    let names :=
      if negb (args_keep_duplicates args)
      then dedupe_preserve_order names else names in
    let st :=
      if truthy names then st
      else
        let note :=
          if contains (lit "linkedin") (domain u)
          then lit "linkedin_login_wall?" else lit "no_names_detected" in
        report st (u, domain u, lit (label_of extractor), 0, note) in
    st <- add_names (args_source_column args) extractor u names st ;;
    let st :=
      if truthy names
      then report st (u, domain u, lit (label_of extractor), length names,
                      lit "ok")
      else st in
    _ <- sleep args ;;
    Ok st.

Fixpoint visit_all (args : Args) (targets : list str) (st : Lists)
    : exc Lists :=
  match targets with
  | [] => Ok st
  | u :: targets' =>
      st <- visit args st u ;;
      visit_all args targets' st
  end.

(** The final de-duplication of the rows with a source, by name. *)
Fixpoint dedupe_rows (rows : list (str * str * str)) (seen : gset str)
    (deduped : list (str * str * str)) : list (str * str * str) :=
  match rows with
  | [] => deduped
  | (n, src, url) :: rows' =>
      let k := strip (lower n) in
      if bool_decide (k ∈ seen) then dedupe_rows rows' seen deduped
      else dedupe_rows rows' ({[k]} ∪ seen) (deduped ++ [(n, src, url)])
  end.

Definition finish (args : Args) (st : Lists) : Lists :=
  if negb (args_keep_duplicates args) then
    if args_source_column args
    then mkLists (all_names st) (dedupe_rows (enriched_rows st) ∅ [])
           (report_rows st)
    else mkLists (dedupe_preserve_order (all_names st)) (enriched_rows st)
           (report_rows st)
  else st.

(** The rows written to [args.out] and to [args.report]. *)
Definition out_rows (args : Args) (st : Lists) : list (list cell) :=
  if args_source_column args then
    map Text [lit "company_name"; lit "source"; lit "from_url"]
    :: map (fun '(n, src, url) => [Text n; Text src; Text url])
         (enriched_rows st)
  else
    [Text (lit "company_name")] :: map (fun n => [Text n]) (all_names st).

Definition report_file_rows (st : Lists) : list (list cell) :=
  map Text [lit "url"; lit "domain"; lit "extractor"; lit "names_count";
            lit "note"]
  :: map (fun '(u, d, e, count, note) =>
            [Text u; Text d; Text e; Number count; Text note])
       (report_rows st).

(** [main]; [None] when an exception escapes.  Opening the files to write
    is taken to succeed. *)
Definition main (args : Args) : option outcome :=
  targets ← read_urls (default [] (args_urls args)) (Some (args_urls_file args));
  if negb (truthy targets) then Some (Exit 1)
  else
    match visit_all args targets (mkLists [] [] []) with
    | Raise _ => None
    | Ok st =>
        let st := finish args st in
        Some (Wrote (args_out args, out_rows args st)
                (match args_report args with
                 | Some path =>
                     if truthy path then Some (path, report_file_rows st)
                     else None
                 | None => None
                 end))
    end.

End Cli.

(** The name is the result of [clean_company_name] on some text. *)
Definition normalized (n : str) : Prop :=
  exists t, n = clean_company_name t.

(** The stripped, non-empty segments of a title between the separators of
    the generic extractor. *)
Definition title_segments (title : str) : list str :=
  List.filter truthy (map strip (Re.split Pat.title_separator title)).

(** A character that a host name may hold for [urlsplit] to return it as it
    is: ASCII, none of the delimiters and brackets, no tab or line break. *)
Definition host_char (c : ascii) : bool :=
  (code c <? 128)
  && negb (char_in (lit "/?#[]") c)
  && negb (char_in [ascii_of_nat 9; ascii_of_nat 13; ascii_of_nat 10] c).

(** [extractor.split("_")[0]] for each label. *)
Definition source_of (p : Provenance) : str :=
  match p with
  | indeed => lit "indeed"
  | linkedin_list | linkedin_fallback => lit "linkedin"
  | generic => lit "generic"
  end.

Section CliAux.
Context {doc elem : Type} `{!Soup doc elem} `{!Host} `{!Files}.

(** The entries that the second loop of [read_urls] keeps, unquoted, from
    a given [seen]. *)
Fixpoint unique_entries (seen : gset str) (collected : list str) : list str :=
  match collected with
  | [] => []
  | u :: rest =>
      let u := unquote u in
      if negb (truthy u) then unique_entries seen rest
      else if negb (bool_decide (snd (norm_key u) ∈ seen))
      then u :: unique_entries ({[snd (norm_key u)]} ∪ seen) rest
      else unique_entries seen rest
  end.

(** The names that one target contributes in [main]: none when nothing
    could be fetched, else the names of the dispatcher. *)
Definition page_names (u : str) : list str :=
  let html := fetch u in
  if negb (truthy html) then []
  else
    match extract_company_names u html with
    | Ok (names, _) => names
    | Raise _ => []
    end.

(** The parser raises on the markup. *)
Definition parser_raises (html : str) : bool :=
  match BeautifulSoup html with
  | Ok _ => false
  | Raise _ => true
  end.

(** The visit of a target raises in the loop of [main]: its text is not
    empty, and the parser raises on it or [time.sleep] does not accept the
    pause. *)
Definition visit_raises (args : Args) (u : str) : bool :=
  truthy (fetch u)
  && (parser_raises (fetch u) || negb (args_sleep_ok args)).

Definition loop_raises (args : Args) (targets : list str) : bool :=
  existsb (visit_raises args) targets.

(** The source that [main] writes beside the names of one target. *)
Definition page_source (u : str) : str :=
  match extract_company_names u (fetch u) with
  | Ok (_, p) => source_of p
  | Raise _ => []
  end.

(** The rows with a source that one target contributes in [main]. *)
Definition page_rows (u : str) : list (str * str * str) :=
  map (fun n => (n, page_source u, u)) (page_names u).

End CliAux.

(** A disk and a web for the examples: the lines of each file by its path,
    the text of each page by its url.  The paths are absolute, so [abspath]
    leaves them as they are. *)
Definition fixture_files (disk : list (string * list string))
    (web : list (string * string)) : Files := {|
  abspath := fun p => p;
  read_lines := fun p =>
    map (fun l => lit l ++ [ascii_of_nat 10]) <$> assoc disk p;
  read_text := fun p =>
    (fun ls => concat (map (fun l => lit l ++ [ascii_of_nat 10]) ls))
    <$> assoc disk p;
  http_get := fun u => lit <$> assoc web u
|}.

(** A run of [main] for the examples: the file of urls names a page of the
    web and a page saved on the disk, which both name [Acme Corp]. *)
Definition sample_title : string := "Acme Corp - Globex Inc".

Definition sample_soup : Soup Page Tag :=
  fixture_soup
    [(title_markup sample_title, title_page sample_title);
     ((company_markup ++ String (ascii_of_nat 10) EmptyString)%string,
      company_page)].

Definition sample_host : Host :=
  fixture_host ["input.txt"; "/srv/saved/acme.html"] false.

Definition sample_files : Files :=
  fixture_files
    [("input.txt",
      ["https://example.com/careers/42"; ""; "'/srv/saved/acme.html'";
       "HTTPS://EXAMPLE.COM/careers/42"]);
     ("/srv/saved/acme.html", [company_markup])]
    [("https://example.com/careers/42", title_markup sample_title)].

Definition sample_args (keep_duplicates source_column : bool) : Args :=
  mkArgs None (lit "input.txt") (lit "company_names.csv")
    (Some (lit "report.csv")) true keep_duplicates source_column.

(** The rows of the two files in an outcome of [main]. *)
Definition written_rows (o : option outcome) : list (list cell) :=
  match o with
  | Some (Wrote (_, rows) _) => rows
  | _ => []
  end.

Definition written_report (o : option outcome) : list (list cell) :=
  match o with
  | Some (Wrote _ (Some (_, rows))) => rows
  | _ => []
  end.

(** ** Python strings: lemmas *)

Lemma isspace_lower_char c : isspace (lower_char c) = isspace c.
Proof. destruct c as [[] [] [] [] [] [] [] []]; reflexivity. Qed.

Lemma lstrip_by_app_last p l c :
  lstrip_by p (l ++ [c]) =
  match lstrip_by p l with
  | [] => if p c then [] else [c]
  | r => r ++ [c]
  end.
Proof.
  induction l as [|a l IH]; simpl; [reflexivity|].
  destruct (p a); [exact IH | reflexivity].
Qed.

Lemma rstrip_by_cons p c s :
  rstrip_by p (c :: s) =
  match rstrip_by p s with
  | [] => if p c then [] else [c]
  | r => c :: r
  end.
Proof.
  unfold rstrip_by. simpl. rewrite lstrip_by_app_last.
  destruct (lstrip_by p (rev s)) as [|a r] eqn:E; simpl.
  - destruct (p c); reflexivity.
  - rewrite rev_app_distr. simpl.
    destruct (rev r ++ [a]) eqn:E'; [|reflexivity].
    destruct (rev r); discriminate.
Qed.

Lemma rstrip_by_nil p : rstrip_by p [] = [].
Proof. reflexivity. Qed.

Lemma rstrip_by_idem p s : rstrip_by p (rstrip_by p s) = rstrip_by p s.
Proof.
  induction s as [|c s IH]; [reflexivity|].
  rewrite rstrip_by_cons.
  destruct (rstrip_by p s) as [|a r] eqn:E.
  - destruct (p c) eqn:Hc; [reflexivity|].
    rewrite rstrip_by_cons, rstrip_by_nil, Hc. reflexivity.
  - rewrite rstrip_by_cons, IH. reflexivity.
Qed.

Lemma lstrip_by_head p s c t : lstrip_by p s = c :: t -> p c = false.
Proof.
  induction s as [|a s IH]; simpl; [discriminate|].
  destruct (p a) eqn:Ha; [exact IH|].
  intros [= <- _]. exact Ha.
Qed.

Lemma lstrip_by_fixed p c t : p c = false -> lstrip_by p (c :: t) = c :: t.
Proof. intros H. simpl. rewrite H. reflexivity. Qed.

Lemma lstrip_by_idem p s : lstrip_by p (lstrip_by p s) = lstrip_by p s.
Proof.
  destruct (lstrip_by p s) as [|c t] eqn:E; [reflexivity|].
  apply lstrip_by_fixed. eapply lstrip_by_head, E.
Qed.

Lemma lstrip_by_suffix p s :
  exists u, s = u ++ lstrip_by p s /\ forallb p u = true.
Proof.
  induction s as [|c s (u & Hu & Hp)]; simpl.
  - exists []. split; reflexivity.
  - destruct (p c) eqn:Hc.
    + exists (c :: u). simpl. rewrite Hc, Hp.
      split; [f_equal; exact Hu | reflexivity].
    + exists []. split; reflexivity.
Qed.

Lemma rstrip_by_prefix p s :
  exists u, s = rstrip_by p s ++ u /\ forallb p u = true.
Proof.
  unfold rstrip_by.
  destruct (lstrip_by_suffix p (rev s)) as (u & Hu & Hp).
  exists (rev u). split.
  - rewrite <- rev_app_distr, <- Hu, rev_involutive. reflexivity.
  - rewrite forallb_forall in *. intros x Hx. apply Hp, in_rev, Hx.
Qed.

Lemma rstrip_by_last p s r c : rstrip_by p s = r ++ [c] -> p c = false.
Proof.
  unfold rstrip_by. intros H.
  apply (f_equal (@rev ascii)) in H.
  rewrite rev_involutive, rev_app_distr in H. simpl in H.
  eapply lstrip_by_head, H.
Qed.

Lemma rstrip_by_keeps_head p c s :
  p c = false -> exists r, rstrip_by p (c :: s) = c :: r.
Proof.
  intros Hc. rewrite rstrip_by_cons.
  destruct (rstrip_by p s) as [|a r]; rewrite ?Hc; eauto.
Qed.

Lemma strip_by_idem p s : strip_by p (strip_by p s) = strip_by p s.
Proof.
  unfold strip_by.
  destruct (lstrip_by p s) as [|c t] eqn:E; [reflexivity|].
  apply lstrip_by_head in E.
  destruct (rstrip_by_keeps_head p c t E) as [r Hr].
  rewrite Hr, (lstrip_by_fixed _ _ _ E), <- Hr.
  apply rstrip_by_idem.
Qed.

Lemma strip_idem s : strip (strip s) = strip s.
Proof. apply strip_by_idem. Qed.

(** The result of [strip_by] neither begins nor ends with a stripped
    character. *)
Lemma strip_by_head p s c t : strip_by p s = c :: t -> p c = false.
Proof.
  unfold strip_by.
  destruct (lstrip_by p s) as [|a u] eqn:E; [discriminate|].
  apply lstrip_by_head in E.
  destruct (rstrip_by_keeps_head p a u E) as [r ->].
  intros [= <- _]. exact E.
Qed.

Lemma strip_by_last p s r c : strip_by p s = r ++ [c] -> p c = false.
Proof. apply rstrip_by_last. Qed.

Lemma lower_lstrip s :
  lower (lstrip_by isspace s) = lstrip_by isspace (lower s).
Proof.
  induction s as [|c s IH]; simpl; [reflexivity|].
  rewrite isspace_lower_char. destruct (isspace c); [exact IH | reflexivity].
Qed.

Lemma lower_rev s : lower (rev s) = rev (lower s).
Proof. unfold lower. apply map_rev. Qed.

Lemma lower_strip s : lower (strip s) = strip (lower s).
Proof.
  unfold strip, strip_by, rstrip_by.
  rewrite lower_rev, lower_lstrip, lower_rev, lower_lstrip. reflexivity.
Qed.

Lemma key_strip x : key (strip x) = key x.
Proof. unfold key. rewrite lower_strip. apply strip_idem. Qed.

Lemma key_nil x : key x = [] <-> strip x = [].
Proof.
  unfold key. rewrite <- lower_strip. unfold lower.
  destruct (strip x); simpl; split; congruence.
Qed.

Lemma key_truthy x : truthy (key x) = truthy (strip x).
Proof.
  unfold key. rewrite <- lower_strip. destruct (strip x); reflexivity.
Qed.

(** ** The deduplicator: lemmas *)

Lemma dedupe_loop_kept (items : list str) :
  forall (seen : gset str) (out : list str),
  dedupe_loop items seen out = out ++ kept seen items.
Proof.
  induction items as [|x items IH]; intros seen out; simpl.
  - rewrite app_nil_r. reflexivity.
  - fold (key x).
    destruct (negb (truthy (key x)) || bool_decide (key x ∈ seen)).
    + apply IH.
    + rewrite IH, <- app_assoc. reflexivity.
Qed.

Lemma dedupe_kept (items : list str) :
  dedupe_preserve_order items = kept ∅ items.
Proof. unfold dedupe_preserve_order. apply dedupe_loop_kept. Qed.

Lemma kept_skip_iff (seen : gset str) (x : str) :
  negb (truthy (key x)) || bool_decide (key x ∈ seen) = true
  <-> key x = [] \/ key x ∈ seen.
Proof.
  rewrite orb_true_iff, bool_decide_eq_true.
  destruct (key x); simpl; split; intros [|]; auto; discriminate.
Qed.

Lemma kept_elem (y : str) (items : list str) : forall seen : gset str,
  y ∈ kept seen items ->
  exists x, x ∈ items /\ y = strip x /\ key x <> [] /\ key x ∉ seen.
Proof.
  induction items as [|x items IH]; intros seen; simpl.
  - intros H. inversion H.
  - destruct (negb (truthy (key x)) || bool_decide (key x ∈ seen)) eqn:E.
    + intros (z & Hz & ?)%IH. exists z. split; [right; exact Hz | assumption].
    + intros [->|H]%elem_of_cons.
      * exists x. split; [left|].
        split; [reflexivity|].
        split; intros C; apply Bool.not_true_iff_false in E; apply E,
          kept_skip_iff; auto.
      * apply IH in H as (z & Hz & -> & Hk & Hs).
        exists z. split; [right; exact Hz|].
        split; [reflexivity|]. split; [exact Hk|]. set_solver.
Qed.

Lemma kept_fresh (y : str) (seen : gset str) (items : list str) :
  y ∈ kept seen items -> key y ∉ seen.
Proof.
  intros (x & _ & -> & _ & H)%kept_elem. rewrite key_strip. exact H.
Qed.

Lemma kept_NoDup (items : list str) :
  forall seen : gset str, NoDup (map key (kept seen items)).
Proof.
  induction items as [|x items IH]; intros seen; simpl; [constructor|].
  destruct (negb (truthy (key x)) || bool_decide (key x ∈ seen)); [apply IH|].
  simpl. constructor; [|apply IH].
  rewrite key_strip. intros (y & Hy & Hin)%list_elem_of_fmap.
  apply kept_fresh in Hin. rewrite <- Hy in Hin. set_solver.
Qed.

Lemma keys_cons (x : str) (items : list str) :
  keys (x :: items) = (if truthy (key x) then {[key x]} else ∅) ∪ keys items.
Proof.
  unfold keys. simpl. destruct (truthy (key x)); simpl; set_solver.
Qed.

Lemma keys_nil : keys [] = ∅.
Proof. reflexivity. Qed.

Lemma elem_of_keys (k : str) (items : list str) :
  k ∈ keys items <-> k <> [] /\ k ∈ map key items.
Proof.
  unfold keys. rewrite elem_of_list_to_set, list_elem_of_In, filter_In,
    <- list_elem_of_In.
  destruct k; simpl; split; intros []; split; auto; congruence.
Qed.

Lemma kept_proper (items : list str) : forall seen seen' : gset str,
  seen ≡ seen' -> kept seen items = kept seen' items.
Proof. intros seen seen' ->%leibniz_equiv. reflexivity. Qed.

Lemma kept_app (a : list str) : forall (seen : gset str) (b : list str),
  kept seen (a ++ b) = kept seen a ++ kept (keys a ∪ seen) b.
Proof.
  induction a as [|x a IH]; intros seen b; simpl.
  - apply kept_proper. rewrite keys_nil. set_solver.
  - rewrite keys_cons.
    destruct (negb (truthy (key x)) || bool_decide (key x ∈ seen)) eqn:E.
    + rewrite IH. f_equal. apply kept_proper.
      apply kept_skip_iff in E as [E|E].
      * rewrite E. simpl. set_solver.
      * destruct (truthy (key x)); set_solver.
    + rewrite IH. simpl. do 2 f_equal. apply kept_proper.
      apply orb_false_iff in E as [E _]. apply negb_false_iff in E.
      rewrite E. set_solver.
Qed.

Lemma kept_fixed (l : list str) : forall seen : gset str,
  (forall x, x ∈ l -> strip x = x /\ x <> []) ->
  NoDup (map key l) ->
  (forall x, x ∈ l -> key x ∉ seen) ->
  kept seen l = l.
Proof.
  induction l as [|x l IH]; intros seen Hs Hn Hf; simpl; [reflexivity|].
  inversion Hn as [|? ? Hx Hn']; subst.
  assert (strip x = x /\ x <> []) as [Hx1 Hx2] by (apply Hs; left).
  destruct (negb (truthy (key x)) || bool_decide (key x ∈ seen)) eqn:E.
  - apply kept_skip_iff in E as [E|E].
    + rewrite key_nil in E. congruence.
    + exfalso. apply (Hf x); [left | exact E].
  - rewrite Hx1. f_equal. apply IH; [| exact Hn' |].
    + intros y Hy. apply Hs. right. exact Hy.
    + intros y Hy. apply not_elem_of_union. split.
      * intros Heq%elem_of_singleton. apply Hx. rewrite <- Heq.
        apply list_elem_of_fmap. eauto.
      * apply Hf. right. exact Hy.
Qed.

Lemma kept_idem (seen : gset str) (items : list str) :
  kept ∅ (kept seen items) = kept seen items.
Proof.
  apply kept_fixed.
  - intros y (x & _ & -> & Hk & _)%kept_elem. split; [apply strip_idem|].
    intros C. apply Hk. rewrite key_nil. exact C.
  - apply kept_NoDup.
  - intros. set_solver.
Qed.

Lemma kept_sublist (items : list str) : forall seen : gset str,
  sublist (kept seen items) (map strip items).
Proof.
  induction items as [|x items IH]; intros seen; simpl; [constructor|].
  destruct (negb (truthy (key x)) || bool_decide (key x ∈ seen)).
  - apply sublist_cons, IH.
  - apply sublist_skip, IH.
Qed.

Lemma kept_drop (pre : list str) (x : str) (post : list str) (seen : gset str) :
  key x = [] \/ key x ∈ keys pre ∪ seen ->
  kept seen (pre ++ x :: post) = kept seen (pre ++ post).
Proof.
  intros H. rewrite !kept_app. f_equal. simpl.
  apply kept_skip_iff in H. rewrite H. reflexivity.
Qed.

Lemma kept_first (pre : list str) (x : str) (post : list str)
    (seen : gset str) :
  key x <> [] -> key x ∉ keys pre ∪ seen ->
  kept seen (pre ++ x :: post) =
  kept seen pre ++ strip x :: kept ({[key x]} ∪ (keys pre ∪ seen)) post.
Proof.
  intros H1 H2. rewrite kept_app. f_equal. simpl.
  destruct (negb (truthy (key x)) || bool_decide (key x ∈ keys pre ∪ seen))
    eqn:E; [|reflexivity].
  apply kept_skip_iff in E as [E|E]; contradiction.
Qed.

(** ** The matcher on the two substituted patterns *)

Lemma rep_greedy_all p prev s :
  Re.rep_greedy p prev s (fun _ rest => Some rest) = Some (lstrip_by p s).
Proof.
  revert prev. induction s as [|c s IH]; intros prev; simpl; [reflexivity|].
  destruct (p c); [rewrite IH|]; reflexivity.
Qed.

Lemma match_at_spaces prev s :
  Re.match_at Pat.spaces prev s =
  match s with
  | c :: s' => if isspace c then Some (lstrip_by isspace s') else None
  | [] => None
  end.
Proof.
  destruct s as [|c s]; [reflexivity|].
  unfold Re.match_at, Pat.spaces, Re.plus. simpl. unfold Re.space.
  destruct (isspace c); [apply rep_greedy_all | reflexivity].
Qed.

Lemma length_lstrip_run s :
  length s - length (lstrip_by isspace s) = run s.
Proof.
  induction s as [|c s IH]; simpl; [reflexivity|].
  destruct (isspace c); simpl; [|lia].
  destruct (lstrip_by_suffix isspace s) as (u & Hu & _).
  apply (f_equal (@length ascii)) in Hu. rewrite length_app in Hu. lia.
Qed.

Lemma collapse_true_head c s :
  isspace c = false -> collapse true (c :: s) = collapse false (c :: s).
Proof. intros H. simpl. rewrite H. reflexivity. Qed.

Lemma sub_go_spaces s : forall prev,
  Re.sub_go Pat.spaces (lit " ") prev s 0 = collapse false s
  /\ Re.sub_go Pat.spaces (lit " ") prev s (run s) = collapse true s.
Proof.
  induction s as [|c s IH]; intros prev.
  - split; reflexivity.
  - assert (Re.sub_go Pat.spaces (lit " ") prev (c :: s) 0
            = collapse false (c :: s)) as H0.
    { cbn [Re.sub_go]. rewrite match_at_spaces. cbn [collapse].
      destruct (isspace c) eqn:Hc.
      - replace (length (c :: s) - length (lstrip_by isspace s))
          with (S (run s)).
        + cbn. f_equal. apply IH.
        + rewrite <- length_lstrip_run. cbn [length].
          destruct (lstrip_by_suffix isspace s) as (u & Hu & _).
          apply (f_equal (@length ascii)) in Hu. rewrite length_app in Hu. lia.
      - f_equal. apply IH. }
    split; [exact H0|].
    cbn [run]. destruct (isspace c) eqn:Hc.
    + cbn [Re.sub_go collapse]. rewrite Hc. apply IH.
    + rewrite H0. cbn [collapse]. rewrite Hc. reflexivity.
Qed.

Lemma sub_spaces s : Re.sub Pat.spaces (lit " ") s = collapse false s.
Proof. apply sub_go_spaces. Qed.

Lemma rep_greedy_prev_free {A} p (k : @Re.cont A) :
  prev_free k -> prev_free (fun a t => Re.rep_greedy p a t k).
Proof.
  intros Hk a b t. revert a b.
  induction t as [|c t IH]; intros a b; simpl; [apply Hk|].
  rewrite (Hk a b). reflexivity.
Qed.

Lemma rep_lazy_prev_free {A} p (k : @Re.cont A) :
  prev_free k -> prev_free (fun a t => Re.rep_lazy p a t k).
Proof.
  intros Hk a b t. revert a b.
  induction t as [|c t IH]; intros a b; simpl; rewrite (Hk a b); reflexivity.
Qed.

Lemma m_prev_free {A} r : forall k : @Re.cont A,
  no_wordb r = true -> prev_free k -> prev_free (fun a t => Re.m r a t k).
Proof.
  induction r as [| p | r1 IH1 r2 IH2 | r1 IH1 r2 IH2 | g p | |];
    intros k Hr Hk a b t; simpl in *.
  - apply Hk.
  - reflexivity.
  - apply andb_true_iff in Hr as [H1 H2].
    apply (IH1 (fun a t => Re.m r2 a t k)); [exact H1|].
    apply IH2; assumption.
  - apply andb_true_iff in Hr as [H1 H2].
    rewrite (IH1 k H1 Hk a b t), (IH2 k H2 Hk a b t). reflexivity.
  - destruct g; [apply rep_greedy_prev_free | apply rep_lazy_prev_free];
      exact Hk.
  - rewrite (Hk a b). reflexivity.
  - discriminate.
Qed.

(** A greedy repetition does not give back characters when what follows
    cannot start with one of them. *)
Lemma rep_greedy_commit {A} p (k : @Re.cont A) s : forall prev,
  prev_free k ->
  (forall a c t, p c = true -> k a (c :: t) = None) ->
  Re.rep_greedy p prev s k = k prev (lstrip_by p s).
Proof.
  intros prev Hk Hp. revert prev.
  induction s as [|c s IH]; intros prev; simpl; [reflexivity|].
  destruct (p c) eqn:Hc; [|reflexivity].
  rewrite IH, (Hk (Some c) prev).
  destruct (k prev (lstrip_by p s)) eqn:E; [reflexivity|].
  apply Hp, Hc.
Qed.

Lemma m_seqs_cons {A} r rs prev s (k : @Re.cont A) :
  Re.m (Re.seqs (r :: rs)) prev s k =
  Re.m r prev s (fun a t => Re.m (Re.seqs rs) a t k).
Proof. destruct rs; reflexivity. Qed.

Lemma m_chars_i {A} (l : str) (k : @Re.cont A) :
  prev_free k ->
  forall prev s,
    Re.m (Re.seqs (map (fun a => Re.Chr (Re.is_char_i a)) l)) prev s k =
    if startswith (lower l) (lower s) then k prev (drop (length l) s)
    else None.
Proof.
  intros Hk. induction l as [|a l IH]; intros prev s.
  - reflexivity.
  - cbn [map]. rewrite m_seqs_cons. cbn [Re.m].
    destruct s as [|c s]; [reflexivity|].
    cbn [lower map startswith length drop]. unfold Re.is_char_i.
    destruct (Ascii.eqb (lower_char a) (lower_char c)); [|reflexivity].
    rewrite IH. cbn [andb]. unfold lower.
    destruct (startswith _ _); [apply Hk | reflexivity].
Qed.

Lemma m_text_i {A} (w : string) (k : @Re.cont A) prev s :
  prev_free k ->
  Re.m (Re.text_i w) prev s k =
  if startswith_i w s then k prev (drop (length (lit w)) s) else None.
Proof. intros Hk. apply m_chars_i, Hk. Qed.

Lemma dot_not_eol c : Re.dot c = true -> (code c =? 10) = false.
Proof. unfold Re.dot. apply negb_true_iff. Qed.

Lemma to_the_end_dots s : forall prev,
  forallb Re.dot s = true ->
  Re.m to_the_end prev s (fun _ rest => Some rest) = Some [].
Proof.
  induction s as [|c s IH]; intros prev H; [reflexivity|].
  cbn [forallb] in H. apply andb_true_iff in H as [Hc Hs].
  specialize (IH (Some c) Hs).
  unfold to_the_end in *. cbn [Re.m] in *. cbn [Re.rep_lazy].
  rewrite Hc.
  destruct s as [|d s]; cbn [Re.at_eol].
  - rewrite (dot_not_eol c Hc). exact IH.
  - exact IH.
Qed.

Lemma forallb_drop {A} (f : A -> bool) n l :
  forallb f l = true -> forallb f (drop n l) = true.
Proof.
  rewrite !forallb_forall. intros H x Hx%list_elem_of_In.
  apply H, list_elem_of_In. eapply subseteq_drop, Hx.
Qed.

Lemma forallb_lstrip (f p : ascii -> bool) s :
  forallb f s = true -> forallb f (lstrip_by p s) = true.
Proof.
  destruct (lstrip_by_suffix p s) as (u & Hu & _).
  rewrite Hu at 1. rewrite forallb_app. intros [_ H]%andb_true_iff. exact H.
Qed.

Lemma space_not_pipe c : isspace c = true -> Re.is_char "|" c = false.
Proof.
  intros H. unfold Re.is_char.
  destruct (Ascii.eqb_spec "|" c) as [<-|]; [discriminate | reflexivity].
Qed.

Lemma brand_not_space c u :
  isspace c = true -> existsb (fun b => startswith_i b (c :: u)) brands = false.
Proof.
  intros H.
  destruct c as [[] [] [] [] [] [] [] []]; try discriminate H; reflexivity.
Qed.

Ltac site_brand_cases Hk :=
  unfold Pat.site_brand; cbn [Re.alts Re.m];
  rewrite !(m_text_i _ _ _ _ Hk); unfold brands; cbn [existsb].

Lemma m_site_brand_none {A} (k : @Re.cont A) prev s :
  prev_free k ->
  existsb (fun b => startswith_i b s) brands = false ->
  Re.m Pat.site_brand prev s k = None.
Proof.
  intros Hk. site_brand_cases Hk.
  repeat (destruct (startswith_i _ s); [discriminate|]). reflexivity.
Qed.

Lemma m_site_brand_dots prev s :
  forallb Re.dot s = true ->
  Re.m Pat.site_brand prev s
    (fun a t => Re.m to_the_end a t (fun _ rest => Some rest)) =
  if existsb (fun b => startswith_i b s) brands then Some [] else None.
Proof.
  intros Hs.
  assert (prev_free (fun a t => Re.m to_the_end a t (fun _ rest => Some rest)))
    as Hk
    by (apply (m_prev_free to_the_end);
        [reflexivity | intros ? ? ?; reflexivity]).
  site_brand_cases Hk.
  rewrite !to_the_end_dots by (apply forallb_drop, Hs).
  repeat (destruct (startswith_i _ s); [reflexivity|]). reflexivity.
Qed.

Lemma match_at_brand_suffix prev s :
  forallb Re.dot s = true ->
  Re.match_at Pat.brand_suffix prev s =
  if brand_starts s then Some [] else None.
Proof.
  intros Hs. unfold Re.match_at.
  set (k0 := fun (_ : option ascii) (rest : str) => Some rest).
  set (r3 := Re.Seq Pat.site_brand to_the_end).
  set (r2 := Re.Seq (Re.Rep true Re.space) r3).
  set (r1 := Re.Seq (Re.Chr (Re.is_char "|")) r2).
  change (Re.rep_greedy Re.space prev s (fun a t => Re.m r1 a t k0) =
          if brand_starts s then Some [] else None).
  assert (prev_free k0) as Hk0 by (intros ? ? ?; reflexivity).
  rewrite rep_greedy_commit.
  - unfold brand_starts. fold Re.space.
    pose proof (forallb_lstrip Re.dot Re.space s Hs) as Ht.
    destruct (lstrip_by Re.space s) as [|c t]; [reflexivity|].
    cbn [forallb] in Ht. apply andb_true_iff in Ht as [_ Ht].
    subst r1. cbn [Re.m].
    destruct (Re.is_char "|" c); [|reflexivity]. cbn [andb].
    subst r2. cbn [Re.m].
    rewrite rep_greedy_commit.
    + subst r3. cbn [Re.m]. apply m_site_brand_dots, forallb_lstrip, Ht.
    + apply (m_prev_free r3); [reflexivity | exact Hk0].
    + intros a c' u Hc'. subst r3. cbn [Re.m].
      apply m_site_brand_none; [|apply brand_not_space, Hc'].
      apply (m_prev_free to_the_end); [reflexivity | exact Hk0].
  - apply (m_prev_free r1); [reflexivity | exact Hk0].
  - intros a c t Hc. subst r1. cbn [Re.m]. rewrite (space_not_pipe c Hc).
    reflexivity.
Qed.

Lemma sub_go_skip_all r repl s : forall prev,
  exists prev',
    Re.sub_go r repl prev s (length s) = Re.sub_go r repl prev' [] 0.
Proof.
  induction s as [|c s IH]; intros prev; [eauto|].
  cbn [length Re.sub_go]. apply IH.
Qed.

Lemma sub_go_brand_suffix s : forall prev,
  forallb Re.dot s = true ->
  Re.sub_go Pat.brand_suffix [] prev s 0 = cut s.
Proof.
  induction s as [|c s IH]; intros prev Hs.
  - cbn [Re.sub_go]. rewrite match_at_brand_suffix by reflexivity. reflexivity.
  - cbn [Re.sub_go]. rewrite match_at_brand_suffix by exact Hs.
    cbn [cut forallb] in *. apply andb_true_iff in Hs as [_ Hs].
    destruct (brand_starts (c :: s)).
    + cbn [length Nat.sub app].
      destruct (sub_go_skip_all Pat.brand_suffix [] s (Some c)) as [q ->].
      cbn [Re.sub_go]. rewrite match_at_brand_suffix by reflexivity.
      reflexivity.
    + f_equal. apply IH, Hs.
Qed.

Lemma sub_brand_suffix s :
  forallb Re.dot s = true -> Re.sub Pat.brand_suffix [] s = cut s.
Proof. apply sub_go_brand_suffix. Qed.

(** ** Collapsed text and brand-free text *)

Lemma collapse_collapsed s : forall b,
  collapsed (collapse b s) = true
  /\ (b = true -> starts_space (collapse b s) = false).
Proof.
  induction s as [|c s IH]; intros b; simpl; [split; reflexivity|].
  destruct (isspace c) eqn:Hc.
  - destruct (IH true) as [H1 H2]. destruct b; [split; auto|].
    split; [|discriminate]. simpl. rewrite H1, H2; reflexivity.
  - destruct (IH false) as [H1 _]. simpl. rewrite Hc, H1. split; auto.
Qed.

Lemma collapse_fixed s : forall b,
  collapsed s = true -> (b = true -> starts_space s = false) ->
  collapse b s = s.
Proof.
  induction s as [|c s IH]; intros b Hs Hb; simpl in *; [reflexivity|].
  apply andb_true_iff in Hs as [Hc Hs].
  destruct (isspace c) eqn:E.
  - apply andb_true_iff in Hc as [Hc Hn].
    apply Ascii.eqb_eq in Hc. apply negb_true_iff in Hn.
    destruct b; [specialize (Hb eq_refl); discriminate|].
    rewrite IH by auto. congruence.
  - rewrite IH; [reflexivity | exact Hs | discriminate].
Qed.

Lemma collapsed_app_r a b : collapsed (a ++ b) = true -> collapsed b = true.
Proof.
  induction a as [|c a IH]; simpl; [auto|].
  intros [_ H]%andb_true_iff. apply IH, H.
Qed.

Lemma starts_space_app a b :
  starts_space (a ++ b) = false -> starts_space a = false.
Proof. destruct a; simpl; auto. Qed.

Lemma collapsed_app_l a b : collapsed (a ++ b) = true -> collapsed a = true.
Proof.
  induction a as [|c a IH]; simpl; [auto|].
  intros [Hc H]%andb_true_iff. rewrite (IH H), andb_true_r.
  destruct (isspace c); [|reflexivity].
  apply andb_true_iff in Hc as [-> Hn]. apply negb_true_iff in Hn.
  rewrite (starts_space_app _ _ Hn). reflexivity.
Qed.

Lemma collapsed_lstrip p s :
  collapsed s = true -> collapsed (lstrip_by p s) = true.
Proof.
  destruct (lstrip_by_suffix p s) as (u & Hu & _). rewrite Hu at 1.
  apply collapsed_app_r.
Qed.

Lemma collapsed_rstrip p s :
  collapsed s = true -> collapsed (rstrip_by p s) = true.
Proof.
  destruct (rstrip_by_prefix p s) as (u & Hu & _). rewrite Hu at 1.
  apply collapsed_app_l.
Qed.

Lemma collapsed_strip_by p s :
  collapsed s = true -> collapsed (strip_by p s) = true.
Proof. intros H. apply collapsed_rstrip, collapsed_lstrip, H. Qed.

Lemma newline_is_space c : Re.dot c = false -> isspace c = true.
Proof.
  destruct c as [[] [] [] [] [] [] [] []]; try discriminate; reflexivity.
Qed.

Lemma collapsed_dots s : collapsed s = true -> forallb Re.dot s = true.
Proof.
  induction s as [|c s IH]; simpl; [auto|].
  intros [Hc H]%andb_true_iff. rewrite (IH H), andb_true_r.
  destruct (Re.dot c) eqn:E; [reflexivity|].
  rewrite (newline_is_space c E) in Hc.
  apply andb_true_iff in Hc as [Hc%Ascii.eqb_eq _]. subst c. discriminate.
Qed.

Lemma collapsed_space s c :
  collapsed s = true -> c ∈ s -> isspace c = true -> c = " "%char.
Proof.
  induction s as [|d s IH]; simpl; intros Hs Hin Hc; [inversion Hin|].
  apply andb_true_iff in Hs as [Hd Hs].
  apply elem_of_cons in Hin as [->|Hin]; [|auto].
  rewrite Hc in Hd. apply andb_true_iff in Hd as [Hd _].
  apply Ascii.eqb_eq, Hd.
Qed.

Lemma cut_prefix s : exists u, s = cut s ++ u.
Proof.
  induction s as [|c s [u Hu]]; [exists []; reflexivity|].
  cbn [cut]. destruct (brand_starts (c :: s)).
  - exists (c :: s). reflexivity.
  - exists u. simpl. f_equal. exact Hu.
Qed.

Lemma lstrip_by_app p a b :
  lstrip_by p a <> [] -> lstrip_by p (a ++ b) = lstrip_by p a ++ b.
Proof.
  induction a as [|c a IH]; simpl; [congruence|].
  destruct (p c); [exact IH | reflexivity].
Qed.

Lemma startswith_app p a b :
  startswith p a = true -> startswith p (a ++ b) = true.
Proof.
  revert a. induction p as [|x p IH]; intros [|c a]; simpl; try congruence.
  intros [-> H]%andb_true_iff. apply IH, H.
Qed.

Lemma startswith_i_app w a b :
  startswith_i w a = true -> startswith_i w (a ++ b) = true.
Proof.
  unfold startswith_i, lower. rewrite map_app. apply startswith_app.
Qed.

Lemma brand_begins_app t b :
  existsb (fun w => startswith_i w (lstrip_by isspace t)) brands = true ->
  existsb (fun w => startswith_i w (lstrip_by isspace (t ++ b))) brands = true.
Proof.
  destruct (lstrip_by isspace t) as [|c u] eqn:E; [discriminate|].
  rewrite lstrip_by_app, E by congruence.
  rewrite !existsb_exists. intros (w & Hw & H). exists w.
  split; [exact Hw | apply (startswith_i_app w (c :: u)), H].
Qed.

Lemma brand_starts_app a b :
  brand_starts a = true -> brand_starts (a ++ b) = true.
Proof.
  unfold brand_starts.
  destruct (lstrip_by isspace a) as [|c t] eqn:E; [discriminate|].
  rewrite lstrip_by_app, E by congruence. cbn [app].
  intros [-> H]%andb_true_iff. apply brand_begins_app, H.
Qed.

Lemma brand_free_app_r a b : brand_free (a ++ b) = true -> brand_free b = true.
Proof.
  induction a as [|c a IH]; [auto|]. cbn [app brand_free].
  intros [_ H]%andb_true_iff. apply IH, H.
Qed.

Lemma brand_free_app_l a b : brand_free (a ++ b) = true -> brand_free a = true.
Proof.
  induction a as [|c a IH]; [auto|]. cbn [app brand_free].
  intros [Hc H]%andb_true_iff. rewrite (IH H), andb_true_r.
  apply negb_true_iff. apply negb_true_iff in Hc.
  destruct (brand_starts (c :: a)) eqn:E; [|reflexivity].
  apply (brand_starts_app _ b) in E. cbn [app] in E. congruence.
Qed.

Lemma brand_free_cut s : brand_free (cut s) = true.
Proof.
  induction s as [|c s IH]; [reflexivity|]. cbn [cut].
  destruct (brand_starts (c :: s)) eqn:E; [reflexivity|].
  cbn [brand_free]. rewrite IH, andb_true_r. apply negb_true_iff.
  destruct (brand_starts (c :: cut s)) eqn:E'; [|reflexivity].
  destruct (cut_prefix s) as [u Hu].
  apply (brand_starts_app _ u) in E'. cbn [app] in E'.
  rewrite <- Hu in E'. congruence.
Qed.

Lemma cut_fixed s : brand_free s = true -> cut s = s.
Proof.
  induction s as [|c s IH]; [reflexivity|]. cbn [brand_free cut].
  intros [Hc H]%andb_true_iff. apply negb_true_iff in Hc.
  rewrite Hc, (IH H). reflexivity.
Qed.

Lemma brand_free_strip_by p s :
  brand_free s = true -> brand_free (strip_by p s) = true.
Proof.
  intros H. unfold strip_by.
  destruct (rstrip_by_prefix p (lstrip_by p s)) as (u & Hu & _).
  destruct (lstrip_by_suffix p s) as (v & Hv & _).
  rewrite Hv in H. apply brand_free_app_r in H.
  rewrite Hu in H. apply brand_free_app_l in H. exact H.
Qed.

(** ** The normalizer: lemmas *)

Lemma rstrip_by_fixed p s :
  (forall r c, s = r ++ [c] -> p c = false) -> rstrip_by p s = s.
Proof.
  intros H. unfold rstrip_by.
  destruct s as [|c r _] using rev_ind; [reflexivity|].
  rewrite rev_app_distr. cbn [rev app lstrip_by].
  rewrite (H r c eq_refl). cbn [rev]. rewrite rev_involutive. reflexivity.
Qed.

Lemma strip_by_fixed p s :
  (forall c t, s = c :: t -> p c = false) ->
  (forall r c, s = r ++ [c] -> p c = false) ->
  strip_by p s = s.
Proof.
  intros Hh Hl. unfold strip_by.
  destruct s as [|c t]; [reflexivity|].
  rewrite (lstrip_by_fixed p c t (Hh c t eq_refl)).
  apply rstrip_by_fixed, Hl.
Qed.

Lemma separator_cases c :
  char_in separators c = true ->
  isspace c = true \/ char_in (lit "-|") c = true.
Proof.
  intros H.
  destruct c as [[] [] [] [] [] [] [] []]; try discriminate H;
    (left; reflexivity) || (right; reflexivity).
Qed.

Lemma space_is_separator : char_in separators " " = true.
Proof. reflexivity. Qed.

Lemma collapsed_not_space s c :
  collapsed s = true -> c ∈ s -> char_in separators c = false ->
  isspace c = false.
Proof.
  intros Hs Hin Hc. destruct (isspace c) eqn:E; [|reflexivity].
  rewrite (collapsed_space s c Hs Hin E), space_is_separator in Hc.
  discriminate.
Qed.

(** The stages of [clean_company_name]. *)
Lemma clean_stages s :
  clean_company_name s =
  strip (cut (strip_chars separators (collapse false s))).
Proof.
  unfold clean_company_name.
  rewrite sub_spaces, sub_brand_suffix; [reflexivity|].
  apply collapsed_dots, collapsed_strip_by, collapse_collapsed.
Qed.

Lemma clean_collapsed s : collapsed (clean_company_name s) = true.
Proof.
  rewrite clean_stages. apply collapsed_strip_by.
  destruct (cut_prefix (strip_chars separators (collapse false s))) as [u Hu].
  apply (collapsed_app_l _ u). rewrite <- Hu.
  apply collapsed_strip_by, collapse_collapsed.
Qed.

Lemma clean_brand_free s : brand_free (clean_company_name s) = true.
Proof. rewrite clean_stages. apply brand_free_strip_by, brand_free_cut. Qed.

Lemma clean_strip s : strip (clean_company_name s) = clean_company_name s.
Proof. unfold clean_company_name. apply strip_idem. Qed.

(** A second application only strips separators. *)
Lemma clean_of_clean t :
  collapsed t = true -> brand_free t = true ->
  clean_company_name t = strip_chars separators t.
Proof.
  intros Hc Hb. rewrite clean_stages.
  rewrite (collapse_fixed t false Hc) by discriminate.
  pose proof (collapsed_strip_by (char_in separators) t Hc) as Hc'.
  rewrite cut_fixed by apply brand_free_strip_by, Hb.
  unfold strip_chars in *.
  apply strip_by_fixed.
  - intros c u E. apply (collapsed_not_space _ c Hc'); [rewrite E; left|].
    eapply strip_by_head, E.
  - intros r c E.
    apply (collapsed_not_space _ c Hc');
      [rewrite E; apply elem_of_app; right; left|].
    eapply strip_by_last, E.
Qed.

Lemma clean_head s c t :
  clean_company_name s = c :: t -> char_in separators c = false.
Proof.
  rewrite clean_stages.
  set (s1 := strip_chars separators (collapse false s)).
  assert (collapsed s1 = true) as Hc
    by apply collapsed_strip_by, collapse_collapsed.
  destruct (cut_prefix s1) as [u Hu].
  destruct (cut s1) as [|d v] eqn:E; [discriminate|].
  assert (char_in separators d = false) as Hd.
  { apply (strip_by_head _ (collapse false s) d (v ++ u)). exact Hu. }
  assert (isspace d = false) as Hs.
  { apply (collapsed_not_space s1); [exact Hc | rewrite Hu; left | exact Hd]. }
  unfold strip, strip_by. rewrite (lstrip_by_fixed _ _ _ Hs).
  destruct (rstrip_by_keeps_head isspace d v Hs) as [r ->].
  intros [= <- _]. exact Hd.
Qed.

Lemma ends_with_separator_last r c :
  ends_with_separator (r ++ [c]) = char_in (lit "-|") c.
Proof. unfold ends_with_separator. rewrite rev_app_distr. reflexivity. Qed.

Lemma dash_pipe_separator c :
  char_in (lit "-|") c = true -> char_in separators c = true.
Proof.
  intros H.
  destruct c as [[] [] [] [] [] [] [] []]; try discriminate H; reflexivity.
Qed.

Lemma clean_fixed_iff s :
  strip_chars separators (clean_company_name s) = clean_company_name s
  <-> ends_with_separator (clean_company_name s) = false.
Proof.
  split.
  - intros H.
    destruct (clean_company_name s) as [|c r _] eqn:E using rev_ind;
      [reflexivity|].
    rewrite ends_with_separator_last.
    destruct (char_in (lit "-|") c) eqn:Hc; [|reflexivity].
    apply dash_pipe_separator in Hc.
    unfold strip_chars in H. apply strip_by_last in H. congruence.
  - intros H. apply strip_by_fixed.
    + intros c t E. eapply clean_head, E.
    + intros r c E. rewrite E, ends_with_separator_last in H.
      destruct (char_in separators c) eqn:Hc; [|reflexivity].
      apply separator_cases in Hc as [Hc|Hc]; [|congruence].
      pose proof (clean_strip s) as Hs. rewrite E in Hs.
      apply strip_by_last in Hs. congruence.
Qed.

(** ** Searching for a literal *)

Lemma match_at_text_i w prev s :
  Re.match_at (Re.text_i w) prev s =
  if startswith_i w s then Some (drop (length (lit w)) s) else None.
Proof.
  unfold Re.match_at.
  apply (m_text_i w (fun (_ : option ascii) (rest : str) => Some rest)).
  intros ? ? ?; reflexivity.
Qed.

Lemma search_from_text_i w s : forall prev,
  Re.search_from (Re.text_i w) prev s = contains (lower (lit w)) (lower s).
Proof.
  induction s as [|c s IH]; intros prev; cbn [Re.search_from];
    rewrite match_at_text_i; unfold startswith_i.
  - cbn [lower map contains]. destruct (startswith _ _); reflexivity.
  - cbn [lower map contains]. fold (lower s).
    destruct (startswith _ _); [reflexivity|]. apply IH.
Qed.

(** Under [re.I] a literal is found exactly when its lower-case form occurs
    in the lower-cased text. *)
Lemma search_text_i w s :
  Re.search (Re.text_i w) s = contains (lower (lit w)) (lower s).
Proof. apply search_from_text_i. Qed.

(** ** The noise classifier *)

(** C8: the classifier rejects the results-count line and the bare
    call-to-action words [Apply] and [Hiring], and accepts [Acme Corp] and
    the brand phrase [Smith & Sons Apply Logistics]. *)
Theorem looks_like_noise_examples :
  looks_like_noise
    (lit "208 EDM Operator AND Machinist jobs in United States") = true
  /\ looks_like_noise (lit "Apply") = true
  /\ looks_like_noise (lit "Hiring") = true
  /\ looks_like_noise (lit "Acme Corp") = false
  /\ looks_like_noise (lit "Smith & Sons Apply Logistics") = false.
Proof. repeat split; vm_compute; reflexivity. Qed.

(** ** Page type and dispatch *)

Section Dispatch.
Context {doc elem : Type} `{!Soup doc elem} `{!Host}.

(** Without a [linkedin.com] host the detector answers [False], whatever
    the url path and the markup hold. *)
Lemma search_page_needs_host url html :
  contains (lit "linkedin.com") (domain url) = false ->
  is_linkedin_search_page url html = false.
Proof. intros H0. unfold is_linkedin_search_page. rewrite H0. reflexivity. Qed.

Lemma search_page_by_route url html :
  contains (lit "linkedin.com") (domain url) = true ->
  contains (lit "/jobs/search") url = true ->
  is_linkedin_search_page url html = true.
Proof.
  intros H0 H1. unfold is_linkedin_search_page. rewrite H0, H1. reflexivity.
Qed.

Lemma search_page_by_marker url html :
  contains (lit "linkedin.com") (domain url) = true ->
  contains (lit "jobs-search__results-list") (lower html) = true ->
  is_linkedin_search_page url html = true.
Proof.
  intros H0 H1. unfold is_linkedin_search_page, Pat.results_list_marker.
  rewrite H0, search_text_i. change (lower (lit "jobs-search__results-list"))
    with (lit "jobs-search__results-list").
  rewrite H1. destruct (contains (lit "/jobs/search") url); reflexivity.
Qed.

(** C10: for a local file whose host names neither site, the markup
    decides: the token [indeed] routes to the Indeed extractor, also when
    [linkedin] occurs too; [linkedin] without [indeed] routes to the
    LinkedIn extractor; neither routes to the generic one.  The tokens are
    looked for without regard to case. *)
Theorem local_dispatch_precedence url html :
  is_local_path url = true ->
  contains (lit "indeed") (domain url) = false ->
  contains (lit "linkedin") (domain url) = false ->
  let has token := contains (lit token) (lower html) in
  (has "indeed"%string = true ->
     extract_company_names url html = extract_from_indeed html)
  /\ (has "indeed"%string = false -> has "linkedin"%string = true ->
     extract_company_names url html = extract_from_linkedin html url)
  /\ (has "indeed"%string = false -> has "linkedin"%string = false ->
     extract_company_names url html = extract_generic html).
Proof.
  intros Hl Hi Hk has. unfold extract_company_names.
  rewrite Hi, Hk, Hl. unfold Pat.indeed_token, Pat.linkedin_token.
  rewrite !search_text_i.
  change (lower (lit "indeed")) with (lit "indeed").
  change (lower (lit "linkedin")) with (lit "linkedin").
  subst has. cbv beta.
  repeat split; intros; repeat match goal with
                               | E : contains _ _ = _ |- _ => rewrite E
                               end; reflexivity.
Qed.

End Dispatch.




(** ** The deduplicator *)

(** C7: a second pass changes nothing; the output follows the order of the
    input and holds each key once; the first string of a key survives,
    stripped, right after the survivors of what came before it; a string
    whose key came earlier, and a string that is empty or only whitespace,
    is discarded. *)
Theorem dedupe_preserve_order_first_wins (items : list str) :
  dedupe_preserve_order (dedupe_preserve_order items)
    = dedupe_preserve_order items
  /\ sublist (dedupe_preserve_order items) (map strip items)
  /\ NoDup (map key (dedupe_preserve_order items))
  /\ (forall pre x post,
        items = pre ++ x :: post -> strip x <> [] -> key x ∉ map key pre ->
        exists rest,
          dedupe_preserve_order items
            = dedupe_preserve_order pre ++ strip x :: rest)
  /\ (forall pre x post,
        items = pre ++ x :: post -> key x ∈ map key pre ->
        dedupe_preserve_order items = dedupe_preserve_order (pre ++ post))
  /\ (forall pre x post,
        items = pre ++ x :: post -> strip x = [] ->
        dedupe_preserve_order items = dedupe_preserve_order (pre ++ post)).
Proof.
  rewrite !dedupe_kept.
  split; [apply kept_idem|].
  split; [apply kept_sublist|].
  split; [apply kept_NoDup|].
  split; [|split].
  - intros pre x post -> Hx Hk. rewrite !dedupe_kept.
    assert (key x <> []) as Hx' by (rewrite key_nil; exact Hx).
    rewrite kept_first; [eauto | exact Hx' |].
    rewrite elem_of_union, elem_of_keys. set_solver.
  - intros pre x post -> Hk. rewrite !dedupe_kept. apply kept_drop.
    destruct (key x) eqn:E; [left; reflexivity|]. right.
    rewrite elem_of_union, elem_of_keys. left. split; [discriminate | exact Hk].
  - intros pre x post -> Hx. rewrite !dedupe_kept. apply kept_drop.
    left. rewrite key_nil. exact Hx.
Qed.

(** ** The normalizer *)


(** C6, amended: a second pass strips the separators from the ends of the
    normalized text and does nothing else; so the normalized text is a
    fixed point exactly when it does not end with a hyphen or a pipe, and
    the result of the second pass always is one. *)
Theorem clean_company_name_second_pass (s : str) :
  clean_company_name (clean_company_name s)
    = strip_chars separators (clean_company_name s)
  /\ (clean_company_name (clean_company_name s) = clean_company_name s
      <-> ends_with_separator (clean_company_name s) = false)
  /\ clean_company_name (clean_company_name (clean_company_name s))
     = clean_company_name (clean_company_name s).
Proof.
  assert (clean_company_name (clean_company_name s)
          = strip_chars separators (clean_company_name s)) as H1
    by (apply clean_of_clean; [apply clean_collapsed | apply clean_brand_free]).
  split; [exact H1|]. split.
  - rewrite H1. apply clean_fixed_iff.
  - rewrite H1 at 1. rewrite clean_of_clean.
    + rewrite H1. apply strip_by_idem.
    + apply collapsed_strip_by, clean_collapsed.
    + apply brand_free_strip_by, clean_brand_free.
Qed.


(** ** The extractors: what they return *)

Lemma index_ok {A : Type} (l : list A) i :
  (S i <=? length l) = true -> exists a, l !! i = Some a /\ index l i = Ok a.
Proof.
  intros H%Nat.leb_le. unfold index.
  destruct (l !! i) as [a|] eqn:E; [eauto|].
  apply lookup_ge_None in E. lia.
Qed.




Section Extractors.
Context {doc elem : Type} `{!Soup doc elem} `{!Host}.

Lemma second_segment_ok names title :
  exists extra, second_segment names title = Ok (names ++ extra).
Proof.
  unfold second_segment.
  destruct (truthy title); [|exists []; rewrite app_nil_r; reflexivity].
  match goal with
  | |- context [2 <=? length ?l] => destruct (2 <=? length l) eqn:E
  end; [|exists []; rewrite app_nil_r; reflexivity].
  destruct (index_ok _ 1 E) as (p & _ & ->). simpl. eauto.
Qed.

Lemma append_meta_ok (soup : doc) names meta_name :
  exists extra, append_meta soup names meta_name = Ok (names ++ extra).
Proof.
  unfold append_meta.
  destruct (match soup_find_meta soup (lit "property") (lit meta_name) with
            | Some m => Some m
            | None => soup_find_meta soup (lit "name") (lit meta_name)
            end) as [m|]; [|exists []; rewrite app_nil_r; reflexivity].
  destruct (get m (lit "content")) as [c|]; cbn [or_empty truthy];
    [|exists []; rewrite app_nil_r; reflexivity].
  destruct (truthy c); [|exists []; rewrite app_nil_r; reflexivity].
  cbn [bind].
  match goal with
  | |- context [2 <=? length ?l] => destruct (2 <=? length l) eqn:E
  end; [|exists []; rewrite app_nil_r; reflexivity].
  destruct (index_ok _ 1 E) as (p & _ & ->). simpl. eauto.
Qed.

Lemma indeed_names_ok (soup : doc) : exists names, indeed_names soup = Ok names.
Proof.
  unfold indeed_names.
  destruct (second_segment_ok
    (fold_left (append_texts soup (fun _ => true)) indeed_detail_selectors
       (fold_left (fun names card => names ++ indeed_card card)
          (soup_select soup
             (lit "[data-jk], .job_seen_beacon, .resultContent, .tapItem, .slider_container"))
          []))
    (title_text soup)) as [extra ->].
  eauto.
Qed.

Lemma linkedin_names_ok (soup : doc) :
  exists names, linkedin_names soup = Ok names.
Proof.
  unfold linkedin_names.
  match goal with
  | |- context [append_meta soup ?n "og:title"] =>
      destruct (append_meta_ok soup n "og:title") as [e1 ->]
  end. cbn [bind].
  match goal with
  | |- context [append_meta soup ?n "twitter:title"] =>
      destruct (append_meta_ok soup n "twitter:title") as [e2 ->]
  end. cbn [bind].
  match goal with
  | |- context [second_segment ?n ?t] =>
      destruct (second_segment_ok n t) as [e3 ->]
  end. eauto.
Qed.

(** Each extractor returns a deduplicated list under its own label, once
    the parser has returned a document. *)
Lemma extract_from_indeed_ok html (soup : doc) :
  BeautifulSoup html = Ok soup ->
  exists cands,
    extract_from_indeed html = Ok (dedupe_preserve_order cands, indeed).
Proof.
  intros Hp. unfold extract_from_indeed. rewrite Hp. cbn [bind].
  destruct (indeed_names_ok soup) as [names ->].
  cbn [bind]. eauto.
Qed.

Lemma extract_from_linkedin_ok html url (soup : doc) :
  BeautifulSoup html = Ok soup ->
  exists cands label,
    extract_from_linkedin html url = Ok (dedupe_preserve_order cands, label)
    /\ (label = linkedin_list \/ label = linkedin_fallback).
Proof.
  intros Hp. unfold extract_from_linkedin. rewrite Hp. cbn [bind].
  destruct (linkedin_names_ok soup) as [names ->].
  cbn [bind].
  destruct (is_linkedin_search_page url html); [|eauto].
  destruct (truthy _); eauto.
Qed.

Lemma extract_generic_ok html (soup : doc) :
  BeautifulSoup html = Ok soup ->
  exists cands,
    extract_generic html = Ok (dedupe_preserve_order cands, generic).
Proof.
  intros Hp. unfold extract_generic. rewrite Hp. cbn [bind]. eauto.
Qed.

(** The dispatcher hands over to one of the three extractors. *)
Lemma extract_company_names_delegates url html :
  extract_company_names url html = extract_from_indeed html
  \/ extract_company_names url html = extract_from_linkedin html url
  \/ extract_company_names url html = extract_generic html.
Proof.
  unfold extract_company_names.
  repeat match goal with
         | |- context [if ?b then _ else _] => destruct b
         end; auto.
Qed.

Lemma extract_company_names_ok url html (soup : doc) :
  BeautifulSoup html = Ok soup ->
  exists cands label,
    extract_company_names url html
      = Ok (dedupe_preserve_order cands, label).
Proof.
  intros Hp.
  destruct (extract_company_names_delegates url html) as [-> | [-> | ->]].
  - destruct (extract_from_indeed_ok html soup Hp) as [c ->]. eauto.
  - destruct (extract_from_linkedin_ok html url soup Hp) as (c & l & -> & _).
    eauto.
  - destruct (extract_generic_ok html soup Hp) as [c ->]. eauto.
Qed.

(** No extractor catches what the parser raises. *)
Lemma extractors_raise html e :
  BeautifulSoup html = Raise e ->
  extract_from_indeed html = Raise e
  /\ (forall url, extract_from_linkedin html url = Raise e)
  /\ extract_generic html = Raise e.
Proof.
  intros Hp. unfold extract_from_indeed, extract_from_linkedin,
    extract_generic. rewrite Hp. repeat split.
Qed.

Lemma extract_company_names_raises url html e :
  BeautifulSoup html = Raise e -> extract_company_names url html = Raise e.
Proof.
  intros (Hi & Hl & Hg)%extractors_raise.
  destruct (extract_company_names_delegates url html) as [-> | [-> | ->]];
    auto.
Qed.

(** A result comes from a document. *)
Lemma extract_company_names_parsed url html r :
  extract_company_names url html = Ok r ->
  exists soup : doc, BeautifulSoup html = Ok soup.
Proof.
  destruct (BeautifulSoup html) as [soup|e] eqn:Hp; [eauto|].
  rewrite (extract_company_names_raises url html e Hp). discriminate.
Qed.

(** Whatever the page, the names returned have distinct keys. *)
Lemma extract_company_names_distinct url html names label :
  extract_company_names url html = Ok (names, label) ->
  NoDup (map key names).
Proof.
  intros E. destruct (extract_company_names_parsed _ _ _ E) as [soup Hp].
  destruct (extract_company_names_ok url html soup Hp) as (c & l & E').
  rewrite E' in E. injection E as <- _. rewrite dedupe_kept. apply kept_NoDup.
Qed.

Lemma fold_left_nil {A B : Type} (f : A -> B -> A) a :
  fold_left f [] a = a.
Proof. reflexivity. Qed.

Lemma set_iter_empty : set_iter ∅ = [].
Proof.
  apply Permutation_nil_r. rewrite set_iter_perm, elements_empty.
  reflexivity.
Qed.

(** What each extractor returns, from the candidates of its cascade. *)
Lemma extract_from_indeed_names html (soup : doc) :
  BeautifulSoup html = Ok soup ->
  exists cands,
    indeed_names soup = Ok cands
    /\ extract_from_indeed html
       = Ok (dedupe_preserve_order
               (List.filter (fun n => truthy n && negb (looks_like_noise n))
                  cands),
             indeed).
Proof.
  intros Hp. unfold extract_from_indeed. rewrite Hp. cbn [bind].
  destruct (indeed_names_ok soup) as [cands ->]. cbn [bind]. eauto.
Qed.

Lemma extract_from_linkedin_names html url (soup : doc) :
  BeautifulSoup html = Ok soup ->
  (is_linkedin_search_page url html = true
   /\ linkedin_jobs_list_names soup <> []
   /\ extract_from_linkedin html url
      = Ok (dedupe_preserve_order (linkedin_jobs_list_names soup),
            linkedin_list))
  \/ (exists cands,
        linkedin_names soup = Ok cands
        /\ extract_from_linkedin html url
           = Ok (dedupe_preserve_order (List.filter is_linkedin_name cands),
                 linkedin_fallback)).
Proof.
  intros Hp. unfold extract_from_linkedin. rewrite Hp. cbn [bind].
  destruct (linkedin_names_ok soup) as [cands ->]. cbn [bind].
  destruct (is_linkedin_search_page url html); [|right; eauto].
  destruct (linkedin_jobs_list_names soup) as [|n l] eqn:El;
    cbn [truthy]; [right; eauto|].
  left. repeat split. discriminate.
Qed.


End Extractors.

(** ** The generic extractor *)

Lemma match_at_title_separator prev c s :
  Re.match_at Pat.title_separator prev (c :: s) =
  if char_in (lit "-|") c then Some s else None.
Proof. reflexivity. Qed.




Section Generic.
Context {doc elem : Type} `{!Soup doc elem} `{!Host}.






End Generic.



(** ** The Indeed extractor *)

Lemma kept_all_seen (l : list str) (seen : gset str) :
  (forall x, x ∈ l -> key x = [] \/ key x ∈ seen) -> kept seen l = [].
Proof.
  induction l as [|x l IH]; intros Hl; [reflexivity|]. cbn [kept].
  assert (negb (truthy (key x)) || bool_decide (key x ∈ seen) = true) as ->
    by (apply kept_skip_iff, Hl; left).
  apply IH. intros y Hy. apply Hl. right. exact Hy.
Qed.

Lemma dedupe_replicate (a : str) k :
  strip a = a -> a <> [] -> dedupe_preserve_order (replicate (S k) a) = [a].
Proof.
  intros Hs Ha. rewrite dedupe_kept.
  change (replicate (S k) a) with ([] ++ a :: replicate k a).
  assert (key a <> []) as Hk by (rewrite key_nil, Hs; exact Ha).
  rewrite kept_first; [|exact Hk | rewrite keys_nil; set_solver].
  cbn [kept app]. rewrite Hs. f_equal.
  apply kept_all_seen. intros x ->%elem_of_replicate_inv. right. set_solver.
Qed.

Lemma filter_replicate {A : Type} (f : A -> bool) k a :
  f a = true -> List.filter f (replicate k a) = replicate k a.
Proof.
  intros Hf. induction k as [|k IH]; [reflexivity|].
  cbn [replicate List.filter]. rewrite Hf, IH. reflexivity.
Qed.

Section Indeed.
Context {doc elem : Type} `{!Soup doc elem} `{!Host}.

Lemma append_texts_same (soup : doc) keep t names sel :
  truthy t && keep t = true ->
  (forall el, el ∈ soup_select soup (lit sel) -> get_text el = t) ->
  append_texts soup keep names sel =
  names ++ replicate (length (soup_select soup (lit sel)))
             (clean_company_name t).
Proof.
  intros Ht. unfold append_texts.
  generalize (soup_select soup (lit sel)) as els. intros els. revert names.
  induction els as [|el els IH]; intros names Hel.
  - cbn. rewrite app_nil_r. reflexivity.
  - cbn [fold_left length replicate].
    rewrite (Hel el) by left. rewrite Ht, IH.
    + rewrite <- app_assoc. reflexivity.
    + intros e He. apply Hel. right. exact He.
Qed.

Lemma fold_append_texts_same (soup : doc) keep t sels : forall names,
  truthy t && keep t = true ->
  (forall sel el, sel ∈ sels -> el ∈ soup_select soup (lit sel) ->
                  get_text el = t) ->
  fold_left (append_texts soup keep) sels names =
  names ++ replicate
             (sum_list (map (fun sel => length (soup_select soup (lit sel)))
                          sels))
             (clean_company_name t).
Proof.
  induction sels as [|sel sels IH]; intros names Ht Hel.
  - cbn. rewrite app_nil_r. reflexivity.
  - cbn [fold_left map sum_list].
    rewrite (append_texts_same soup keep t names sel Ht)
      by (intros el; apply Hel; left).
    rewrite IH; [| exact Ht | intros s e Hs; apply Hel; right; exact Hs].
    rewrite <- app_assoc, <- replicate_add. reflexivity.
Qed.

Lemma sum_list_pos {A : Type} (f : A -> nat) (l : list A) x :
  x ∈ l -> 0 < f x -> 0 < sum_list (map f l).
Proof.
  induction l as [|y l IH]; intros Hin Hx; [inversion Hin|].
  simpl. apply elem_of_cons in Hin as [<-|Hin]; [lia|].
  specialize (IH Hin Hx). lia.
Qed.

(** With an Indeed host the dispatcher hands over to the Indeed
    extractor. *)
Lemma dispatch_indeed url html :
  contains (lit "indeed") (domain url) = true ->
  extract_company_names url html = extract_from_indeed html.
Proof. intros Hi. unfold extract_company_names. rewrite Hi. reflexivity. Qed.

(** C9: on an Indeed page without result cards and without a title, where
    the company blocks that the detail selectors find all read
    ["  Acme   Corp  | Indeed"] (so that [get_text(strip=True)] gives this
    text stripped) and there is at least one, the result is the single name
    [Acme Corp] under the label [indeed]. *)
Theorem indeed_company_block url html (soup : doc) :
  contains (lit "indeed") (domain url) = true ->
  BeautifulSoup html = Ok soup ->
  soup_select soup
    (lit "[data-jk], .job_seen_beacon, .resultContent, .tapItem, .slider_container")
    = [] ->
  title_text soup = [] ->
  (forall sel el,
     sel ∈ indeed_detail_selectors -> el ∈ soup_select soup (lit sel) ->
     get_text el = strip (lit "  Acme   Corp  | Indeed")) ->
  (exists sel el,
     sel ∈ indeed_detail_selectors /\ el ∈ soup_select soup (lit sel)) ->
  extract_company_names url html = Ok ([lit "Acme Corp"], indeed).
Proof.
  intros Hi Hdoc Hcards Htitle Htext (sel & el & Hsel & Hel).
  rewrite (dispatch_indeed url html Hi).
  unfold extract_from_indeed, indeed_names. rewrite Hdoc. cbn [bind].
  rewrite Hcards, Htitle. cbn [fold_left second_segment truthy bind].
  rewrite (fold_append_texts_same soup (fun _ => true)
             (strip (lit "  Acme   Corp  | Indeed")))
    by (reflexivity || exact Htext).
  cbn [app].
  assert (0 < sum_list (map (fun sel => length (soup_select soup (lit sel)))
                          indeed_detail_selectors)) as Hpos.
  { apply (sum_list_pos _ _ sel Hsel).
    destruct (soup_select soup (lit sel)); [inversion Hel | cbn; lia]. }
  destruct (sum_list _) as [|k]; [lia|].
  change (clean_company_name (strip (lit "  Acme   Corp  | Indeed")))
    with (lit "Acme Corp").
  rewrite filter_replicate by reflexivity.
  rewrite dedupe_replicate; [reflexivity | reflexivity | discriminate].
Qed.

End Indeed.


(** ** The LinkedIn extractor *)

Lemma startswith_shorter p q s :
  startswith (p ++ q) s = true -> startswith p s = true.
Proof.
  revert s. induction p as [|a p IH]; intros s; [reflexivity|].
  destruct s as [|c s]; cbn; [congruence|].
  intros [-> H]%andb_true_iff. apply IH, H.
Qed.

Lemma contains_shorter p q s :
  contains (p ++ q) s = true -> contains p s = true.
Proof.
  induction s as [|c s IH]; cbn [contains].
  - rewrite !orb_false_r. apply startswith_shorter.
  - intros [H|H]%orb_true_iff; apply orb_true_iff;
      [left; eapply startswith_shorter, H | right; apply IH, H].
Qed.

Lemma kept_complete (l : list str) : forall (seen : gset str) x,
  x ∈ l -> key x <> [] ->
  key x ∈ seen \/ exists y, y ∈ kept seen l /\ key y = key x.
Proof.
  induction l as [|a l IH]; intros seen x Hin Hx; [inversion Hin|].
  cbn [kept].
  destruct (negb (truthy (key a)) || bool_decide (key a ∈ seen)) eqn:E.
  - apply elem_of_cons in Hin as [->|Hin].
    + apply kept_skip_iff in E as [E|E]; [contradiction | left; exact E].
    + apply IH; assumption.
  - apply elem_of_cons in Hin as [->|Hin].
    + right. exists (strip a). split; [left | apply key_strip].
    + destruct (IH ({[key a]} ∪ seen) x Hin Hx) as [Hs | (y & Hy & Hk)].
      * apply elem_of_union in Hs as [Hs%elem_of_singleton | Hs];
          [|left; exact Hs].
        right. exists (strip a). split; [left|].
        rewrite key_strip. symmetry. exact Hs.
      * right. exists y. split; [right; exact Hy | exact Hk].
Qed.

Section LinkedIn.
Context {doc elem : Type} `{!Soup doc elem} `{!Host}.

Lemma linkedin_card_clean (li : elem) n :
  n ∈ linkedin_card li -> strip n = n.
Proof.
  unfold linkedin_card.
  repeat match goal with
         | |- context [if ?b then _ else _] => destruct b
         end;
    intros Hn; try (inversion Hn; fail);
    apply list_elem_of_singleton in Hn as ->; apply clean_strip.
Qed.

Lemma fold_cards_clean (lis : list elem) : forall names,
  Forall (fun n => strip n = n) names ->
  Forall (fun n => strip n = n)
    (fold_left (fun names li => names ++ linkedin_card li) lis names).
Proof.
  induction lis as [|li lis IH]; intros names Hn; [exact Hn|].
  cbn [fold_left]. apply IH, Forall_app. split; [exact Hn|].
  apply Forall_forall. intros n. apply linkedin_card_clean.
Qed.

(** The names of the results list are stripped and not empty. *)
Lemma linkedin_jobs_list_names_clean (soup : doc) n :
  n ∈ linkedin_jobs_list_names soup -> strip n = n /\ n <> [].
Proof.
  unfold linkedin_jobs_list_names.
  intros [Hin Hf]%list_elem_of_In%filter_In. split.
  - pose proof (fold_cards_clean
      (soup_select soup (lit "ul.jobs-search__results-list li")) []
      (Forall_nil_2 _)) as HF.
    rewrite Forall_forall in HF. apply HF, list_elem_of_In, Hin.
  - unfold is_linkedin_name in Hf. destruct n; [discriminate | discriminate].
Qed.

(** A search page lies on a LinkedIn host, so the dispatcher hands over
    to the LinkedIn extractor unless the host also names Indeed. *)
Lemma dispatch_linkedin_search url html :
  contains (lit "indeed") (domain url) = false ->
  is_linkedin_search_page url html = true ->
  extract_company_names url html = extract_from_linkedin html url.
Proof.
  intros Hi Hs. unfold extract_company_names. rewrite Hi.
  unfold is_linkedin_search_page in Hs.
  destruct (contains (lit "linkedin.com") (domain url)) eqn:E;
    [|discriminate].
  rewrite (contains_shorter (lit "linkedin") (lit ".com") _ E). reflexivity.
Qed.

(** C1, amended: for a url that the detector classifies as a LinkedIn
    search page and whose host does not name Indeed, when the results list
    yields at least one name, the result is the deduplicated results list
    under the label [linkedin_list], whatever else the markup holds: every
    name returned is a name of the list, every name of the list is
    returned under its key, no key is returned twice, and the list itself
    is returned when its keys are distinct. *)
Theorem linkedin_search_page_list_only url html (soup : doc) :
  contains (lit "indeed") (domain url) = false ->
  is_linkedin_search_page url html = true ->
  BeautifulSoup html = Ok soup ->
  let list_names := linkedin_jobs_list_names soup in
  list_names <> [] ->
  exists names,
    extract_company_names url html = Ok (names, linkedin_list)
    /\ names = dedupe_preserve_order list_names
    /\ (forall n, n ∈ names -> n ∈ list_names)
    /\ (forall n, n ∈ list_names -> exists n', n' ∈ names /\ key n' = key n)
    /\ NoDup (map key names)
    /\ (NoDup (map key list_names) -> names = list_names).
Proof.
  intros Hi Hs Hdoc list_names Hne.
  exists (dedupe_preserve_order list_names).
  split; [|split; [reflexivity|]].
  { rewrite (dispatch_linkedin_search url html Hi Hs).
    unfold extract_from_linkedin. rewrite Hdoc, Hs. cbn [bind].
    fold list_names.
    destruct list_names; [contradiction | reflexivity]. }
  rewrite dedupe_kept.
  split; [|split; [|split]].
  - intros n (x & Hx & -> & _)%kept_elem.
    destruct (linkedin_jobs_list_names_clean _ x Hx) as [-> _]. exact Hx.
  - intros n Hn.
    destruct (linkedin_jobs_list_names_clean _ n Hn) as [Hst Hn0].
    destruct (kept_complete list_names ∅ n Hn) as [C | Hy];
      [rewrite key_nil, Hst; exact Hn0 | set_solver | exact Hy].
  - apply kept_NoDup.
  - intros Hnd. apply kept_fixed; [|exact Hnd | intros; set_solver].
    intros x Hx. apply (linkedin_jobs_list_names_clean _ x Hx).
Qed.

End LinkedIn.

(** ** Examples *)

(** C10, at a saved page that names both sites: the Indeed extractor is
    chosen. *)
Lemma local_dispatch_precedence_witness :
  let h := fixture_host [] false in
  let sp := fixture_soup [] in
  let url := lit "file:///C:/saved/page.html" in
  let html := lit "<p>Seen on LinkedIn and on Indeed</p>" in
  (@is_local_path h url = true
   /\ contains (lit "indeed") (@domain h url) = false
   /\ contains (lit "linkedin") (@domain h url) = false)
  /\ contains (lit "indeed") (lower html) = true
  /\ contains (lit "linkedin") (lower html) = true
  /\ @extract_company_names _ _ sp h url html
     = @extract_from_indeed _ _ sp html.
Proof.
  intros h sp url html.
  split; [repeat split; reflexivity|].
  split; [reflexivity|]. split; [reflexivity|].
  apply (@local_dispatch_precedence _ _ sp h url html); reflexivity.
Defined.

(** C3, at a saved search page, given by its path or as a [file://] url:
    the file is local and its markup holds the results-list marker, yet the
    detector answers [False], because a local file has no [linkedin.com]
    host and the detector returns before it looks at the markup. *)
Theorem saved_search_page_not_detected :
  let h := fixture_host [saved_search] false in
  let file_url := lit "file:///C:/Users/me/Downloads/linkedin_search.html" in
  @is_local_path h (lit saved_search) = true
  /\ contains (lit "jobs-search__results-list") (lower (lit saved_markup))
     = true
  /\ @domain h (lit saved_search) = []
  /\ @is_linkedin_search_page h (lit saved_search) (lit saved_markup) = false
  /\ @is_local_path h file_url = true
  /\ @is_linkedin_search_page h file_url (lit saved_markup) = false.
Proof. intros h file_url. repeat split; vm_compute; reflexivity. Qed.

(** C7, at a list with a repeated key and a blank string. *)
Lemma dedupe_preserve_order_first_wins_witness :
  let items := map lit ["Acme"; " "; "acme "; "Globex"]%string in
  dedupe_preserve_order (dedupe_preserve_order items)
    = dedupe_preserve_order items
  /\ dedupe_preserve_order items
     = dedupe_preserve_order (map lit ["Acme"; " "; "Globex"]%string)
  /\ dedupe_preserve_order items
     = dedupe_preserve_order (map lit ["Acme"; "acme "; "Globex"]%string).
Proof.
  intros items.
  pose proof (dedupe_preserve_order_first_wins items)
    as (H1 & _ & _ & _ & H5 & H6).
  split; [exact H1|]. split.
  - apply (H5 (map lit ["Acme"; " "]%string) (lit "acme ") [lit "Globex"]);
      [reflexivity | vm_compute; left].
  - apply (H6 [lit "Acme"] (lit " ") (map lit ["acme "; "Globex"]%string));
      reflexivity.
Defined.

(** C6, as stated, fails: removing the site brand can leave a separator at
    the end, which only a second pass strips. *)
Lemma clean_company_name_not_idempotent :
  let s := lit "Acme Corp - | LinkedIn" in
  clean_company_name s = lit "Acme Corp -"
  /\ clean_company_name (clean_company_name s) = lit "Acme Corp"
  /\ clean_company_name (clean_company_name s) <> clean_company_name s.
Proof.
  intros s. split; [reflexivity|]. split; [reflexivity|].
  vm_compute. discriminate.
Qed.

(** C6, amended, at a name followed by a site brand. *)
Lemma clean_company_name_second_pass_witness :
  let s := lit "  Acme   Corp  | Indeed" in
  ends_with_separator (clean_company_name s) = false
  /\ clean_company_name (clean_company_name s) = clean_company_name s.
Proof.
  intros s. split; [reflexivity|].
  apply (proj1 (proj2 (clean_company_name_second_pass s))). reflexivity.
Defined.



(** C4, at a generic page with two names in its title: the candidates are
    held in a set, and the order of the result is the order in which the
    host iterates it; on a host that iterates it the other way round the
    result is the reverse of the first-seen order. *)
Theorem generic_order_follows_set_iteration :
  let t := "Acme Corp - Globex Inc"%string in
  let sp := fixture_soup (titled t) in
  let url := lit "https://example.com/careers/42" in
  let html := lit (title_markup t) in
  BeautifulSoup (Soup := sp) html = Ok (title_page t)
  /\ @generic_names _ _ sp (title_page t)
     = {[lit "Acme Corp"]} ∪ {[lit "Globex Inc"]}
  /\ @extract_company_names _ _ sp (fixture_host [] false) url html
     = Ok ([lit "Acme Corp"; lit "Globex Inc"], generic)
  /\ @extract_company_names _ _ sp (fixture_host [] true) url html
     = Ok ([lit "Globex Inc"; lit "Acme Corp"], generic).
Proof.
  intros t sp url html. split; [vm_compute; reflexivity|].
  split; [|split; vm_compute; reflexivity].
  apply leibniz_equiv. cbn. set_solver.
Qed.

(** C9, at a job page whose company link reads as in the example. *)
Lemma indeed_company_block_witness :
  let sp := fixture_soup [(company_markup, company_page)] in
  let h := fixture_host [] false in
  let url := lit "https://www.indeed.com/viewjob?jk=0123456789abcdef" in
  let html := lit company_markup in
  contains (lit "indeed") (@domain h url) = true
  /\ @extract_company_names _ _ sp h url html = Ok ([lit "Acme Corp"], indeed).
Proof.
  intros sp h url html. split; [reflexivity|].
  apply (@indeed_company_block _ _ sp h url html company_page).
  - reflexivity.
  - reflexivity.
  - reflexivity.
  - reflexivity.
  - intros sel el Hsel Hel.
    repeat (apply elem_of_cons in Hsel as [->|Hsel]);
      try (inversion Hsel; fail); vm_compute in Hel;
      try (inversion Hel; fail).
    apply list_elem_of_singleton in Hel as ->. reflexivity.
  - exists "#companyInfo a"%string, (text_tag "  Acme   Corp  | Indeed").
    split; [right; left | left].
Defined.

(** C1, as stated, fails: a url whose host names both sites is classified
    as a LinkedIn search page, its results list yields a name, and the
    dispatcher still hands it to the Indeed extractor, which returns the
    name in the title under the label [indeed]. *)
Lemma search_page_on_indeed_host :
  let sp := fixture_soup [(results_markup, results_page)] in
  let h := fixture_host [] false in
  let url := lit "https://indeed.linkedin.com/jobs/search?keywords=machinist" in
  let html := lit results_markup in
  @is_linkedin_search_page h url html = true
  /\ BeautifulSoup (Soup := sp) html = Ok results_page
  /\ @linkedin_jobs_list_names _ _ sp results_page = [lit "Acme Corp"]
  /\ @extract_company_names _ _ sp h url html = Ok ([lit "Globex Inc"], indeed)
  /\ ~ (exists names,
          @extract_company_names _ _ sp h url html = Ok (names, linkedin_list)).
Proof.
  intros sp h url html.
  assert (@extract_company_names _ _ sp h url html
          = Ok ([lit "Globex Inc"], indeed)) as E
    by (vm_compute; reflexivity).
  split; [vm_compute; reflexivity|]. split; [vm_compute; reflexivity|].
  split; [vm_compute; reflexivity|]. split; [exact E|].
  intros [names C]. rewrite E in C. discriminate.
Qed.

(** C1, amended, at a search url of the site: the one name of the results
    list is returned, and not the name of the top card. *)
Lemma linkedin_search_page_list_only_witness :
  let sp := fixture_soup [(results_markup, results_page)] in
  let h := fixture_host [] false in
  let url := lit "https://www.linkedin.com/jobs/search?keywords=machinist" in
  let html := lit results_markup in
  (contains (lit "indeed") (@domain h url) = false
   /\ @is_linkedin_search_page h url html = true
   /\ BeautifulSoup (Soup := sp) html = Ok results_page
   /\ @linkedin_jobs_list_names _ _ sp results_page <> [])
  /\ soup_select (Soup := sp) results_page (lit "a.topcard__org-name-link")
     <> []
  /\ @extract_company_names _ _ sp h url html
     = Ok ([lit "Acme Corp"], linkedin_list).
Proof.
  intros sp h url html.
  split;
    [repeat split; try (vm_compute; reflexivity); vm_compute; discriminate|].
  split; [vm_compute; discriminate|].
  destruct (@linkedin_search_page_list_only _ _ sp h url html results_page)
    as (names & -> & -> & _);
    try (vm_compute; reflexivity).
  vm_compute. discriminate.
Defined.



(** * Further properties of the code *)

(** ** The normalizer: the shape of its result *)

Lemma length_lstrip_by p s : length (lstrip_by p s) <= length s.
Proof.
  destruct (lstrip_by_suffix p s) as (u & Hu & _).
  rewrite Hu at 2. rewrite length_app. lia.
Qed.

Lemma length_rstrip_by p s : length (rstrip_by p s) <= length s.
Proof.
  destruct (rstrip_by_prefix p s) as (u & Hu & _).
  rewrite Hu at 2. rewrite length_app. lia.
Qed.

Lemma length_strip_by p s : length (strip_by p s) <= length s.
Proof.
  unfold strip_by.
  pose proof (length_rstrip_by p (lstrip_by p s)).
  pose proof (length_lstrip_by p s). lia.
Qed.

Lemma length_collapse s : forall b, length (collapse b s) <= length s.
Proof.
  induction s as [|c s IH]; intros b; simpl; [lia|].
  pose proof (IH true). pose proof (IH false).
  destruct (isspace c); [destruct b|]; simpl; lia.
Qed.

Lemma length_cut s : length (cut s) <= length s.
Proof.
  destruct (cut_prefix s) as [u Hu]. rewrite Hu at 2. rewrite length_app. lia.
Qed.

Lemma collapsed_no_double_space s :
  collapsed s = true -> contains (lit "  ") s = false.
Proof.
  induction s as [|c s IH]; [reflexivity|].
  cbn [collapsed]. intros [Hc Hs]%andb_true_iff.
  cbn [contains]. rewrite (IH Hs), orb_false_r.
  change (startswith (lit "  ") (c :: s))
    with (Ascii.eqb " " c && startswith [" "%char] s).
  destruct (Ascii.eqb_spec " " c) as [<-|]; [|reflexivity]. cbn [andb].
  change (isspace " ") with true in Hc. cbv iota in Hc.
  apply andb_true_iff in Hc as [_ Hc]. apply negb_true_iff in Hc.
  destruct s as [|d s]; [reflexivity|]. cbn [starts_space] in Hc.
  change (startswith [" "%char] (d :: s)) with (Ascii.eqb " " d && true).
  destruct (Ascii.eqb_spec " " d) as [<-|]; [discriminate Hc | reflexivity].
Qed.

Lemma search_from_brand_suffix s : forall prev,
  forallb Re.dot s = true ->
  Re.search_from Pat.brand_suffix prev s = negb (brand_free s).
Proof.
  induction s as [|c s IH]; intros prev Hs; cbn [Re.search_from];
    rewrite match_at_brand_suffix by exact Hs.
  - reflexivity.
  - cbn [brand_free forallb] in *. apply andb_true_iff in Hs as [_ Hs].
    destruct (brand_starts (c :: s)); [reflexivity|].
    rewrite (IH _ Hs). reflexivity.
Qed.

(** X1: the normalized text has no whitespace at its ends, no whitespace
    but single spaces, no space, hyphen or pipe at its start, and is not
    longer than the text given. *)
Theorem clean_company_name_tidy (s : str) :
  let t := clean_company_name s in
  strip t = t
  /\ (forall c, c ∈ t -> isspace c = true -> c = " "%char)
  /\ contains (lit "  ") t = false
  /\ (forall c u, t = c :: u -> char_in separators c = false)
  /\ length t <= length s.
Proof.
  intros t. subst t.
  split; [apply clean_strip|].
  split; [intros c; apply collapsed_space, clean_collapsed|].
  split; [apply collapsed_no_double_space, clean_collapsed|].
  split; [intros c u; apply clean_head|].
  rewrite clean_stages. unfold strip, strip_chars.
  pose proof (length_strip_by isspace
                (cut (strip_by (char_in separators) (collapse false s)))).
  pose proof (length_cut (strip_by (char_in separators) (collapse false s))).
  pose proof (length_strip_by (char_in separators) (collapse false s)).
  pose proof (length_collapse s false). lia.
Qed.

(** X2: in the normalized text the site-brand pattern matches nowhere, so
    substituting it once more changes nothing. *)
Theorem clean_company_name_no_brand (s : str) :
  Re.search Pat.brand_suffix (clean_company_name s) = false
  /\ Re.sub Pat.brand_suffix [] (clean_company_name s) = clean_company_name s.
Proof.
  pose proof (collapsed_dots _ (clean_collapsed s)) as Hd.
  split.
  - unfold Re.search. rewrite search_from_brand_suffix by exact Hd.
    rewrite clean_brand_free. reflexivity.
  - rewrite sub_brand_suffix by exact Hd. apply cut_fixed, clean_brand_free.
Qed.

(** ** The extractors: what every returned name is *)

Lemma noise_strip x : looks_like_noise (strip x) = looks_like_noise x.
Proof. unfold looks_like_noise. rewrite strip_idem. reflexivity. Qed.

Lemma normalized_strip n : normalized n -> strip n = n.
Proof. intros [t ->]. apply clean_strip. Qed.

Lemma filter_sublist {A : Type} (f : A -> bool) (l : list A) :
  sublist (List.filter f l) l.
Proof.
  induction l as [|a l IH]; [constructor|]. cbn [List.filter].
  destruct (f a); [apply sublist_skip | apply sublist_cons]; exact IH.
Qed.

Lemma map_strip_fixed (l : list str) :
  Forall (fun n => strip n = n) l -> map strip l = l.
Proof.
  induction 1 as [|n l Hn _ IH]; [reflexivity|].
  cbn [map]. rewrite Hn, IH. reflexivity.
Qed.

(** De-duplication of stripped candidates gives a subsequence of them. *)
Lemma dedupe_filter_sublist (f : str -> bool) (cands : list str) :
  Forall normalized cands ->
  sublist (dedupe_preserve_order (List.filter f cands)) cands.
Proof.
  intros Hc. rewrite dedupe_kept.
  transitivity (List.filter f cands); [|apply filter_sublist].
  rewrite <- (map_strip_fixed (List.filter f cands)) at 2.
  - apply kept_sublist.
  - apply Forall_forall. intros n [Hn _]%list_elem_of_In%filter_In.
    apply normalized_strip. rewrite Forall_forall in Hc.
    apply Hc, list_elem_of_In, Hn.
Qed.

Lemma dedupe_elem (cands : list str) n :
  n ∈ dedupe_preserve_order cands ->
  exists x, x ∈ cands /\ n = strip x /\ strip x <> [].
Proof.
  rewrite dedupe_kept. intros (x & Hx & -> & Hk & _)%kept_elem.
  exists x. split; [exact Hx|]. split; [reflexivity|].
  rewrite <- key_nil. exact Hk.
Qed.

Lemma dedupe_nonempty (x : str) (l : list str) :
  strip x <> [] -> dedupe_preserve_order (x :: l) <> [].
Proof.
  intros Hx. rewrite dedupe_kept. cbn [kept].
  match goal with
  | |- context [if ?b then _ else _] => destruct b eqn:E
  end; [|discriminate].
  apply kept_skip_iff in E as [E|E]; [|set_solver].
  rewrite key_nil in E. contradiction.
Qed.

Section Names.
Context {doc elem : Type} `{!Soup doc elem} `{!Host}.

Lemma first_text_normalized (card : elem) sels :
  Forall normalized (first_text card sels).
Proof.
  induction sels as [|sel sels IH]; [constructor|]. cbn [first_text].
  destruct (truthy _); [|exact IH].
  repeat constructor. eexists. reflexivity.
Qed.

Lemma indeed_card_normalized (card : elem) :
  Forall normalized (indeed_card card).
Proof.
  unfold indeed_card. destruct (truthy _); [|apply first_text_normalized].
  repeat constructor. eexists. reflexivity.
Qed.

Lemma linkedin_card_normalized (li : elem) :
  Forall normalized (linkedin_card li).
Proof.
  unfold linkedin_card.
  repeat match goal with
         | |- context [if ?b then _ else _] => destruct b
         end;
    repeat constructor; eexists; reflexivity.
Qed.

Lemma fold_cards_normalized (f : elem -> list str) (cards : list elem) :
  (forall card, Forall normalized (f card)) ->
  forall names,
    Forall normalized names ->
    Forall normalized (fold_left (fun names card => names ++ f card) cards names).
Proof.
  intros Hf. induction cards as [|card cards IH]; intros names Hn; [exact Hn|].
  cbn [fold_left]. apply IH, Forall_app. split; [exact Hn | apply Hf].
Qed.

Lemma append_texts_normalized (soup : doc) keep names sel :
  Forall normalized names ->
  Forall normalized (append_texts soup keep names sel).
Proof.
  unfold append_texts.
  generalize (soup_select soup (lit sel)) as els. intros els. revert names.
  induction els as [|el els IH]; intros names Hn; [exact Hn|].
  cbn [fold_left]. apply IH. destruct (truthy _ && keep _); [|exact Hn].
  apply Forall_app. split; [exact Hn|].
  repeat constructor. eexists. reflexivity.
Qed.

Lemma fold_append_texts_normalized (soup : doc) keep sels : forall names,
  Forall normalized names ->
  Forall normalized (fold_left (append_texts soup keep) sels names).
Proof.
  induction sels as [|sel sels IH]; intros names Hn; [exact Hn|].
  cbn [fold_left]. apply IH, append_texts_normalized, Hn.
Qed.

Lemma second_segment_normalized names title names' :
  second_segment names title = Ok names' ->
  Forall normalized names -> Forall normalized names'.
Proof.
  unfold second_segment. intros E Hn.
  destruct (truthy title); [|injection E as <-; exact Hn].
  match type of E with
  | context [2 <=? length ?l] => destruct (2 <=? length l) eqn:E2
  end; [|injection E as <-; exact Hn].
  destruct (index_ok _ 1 E2) as (p & _ & Hp). rewrite Hp in E.
  cbn [bind] in E. injection E as <-.
  apply Forall_app. split; [exact Hn|].
  repeat constructor. eexists. reflexivity.
Qed.

Lemma append_meta_normalized (soup : doc) names meta_name names' :
  append_meta soup names meta_name = Ok names' ->
  Forall normalized names -> Forall normalized names'.
Proof.
  unfold append_meta. intros E Hn.
  destruct (match soup_find_meta soup (lit "property") (lit meta_name) with
            | Some m => Some m
            | None => soup_find_meta soup (lit "name") (lit meta_name)
            end) as [m|]; [|injection E as <-; exact Hn].
  destruct (get m (lit "content")) as [c|]; cbn [or_empty truthy] in E;
    [|injection E as <-; exact Hn].
  destruct (truthy c); [|injection E as <-; exact Hn].
  cbn [bind] in E.
  match type of E with
  | context [2 <=? length ?l] => destruct (2 <=? length l) eqn:E2
  end; [|injection E as <-; exact Hn].
  destruct (index_ok _ 1 E2) as (p & _ & Hp). rewrite Hp in E.
  cbn [bind] in E. injection E as <-.
  apply Forall_app. split; [exact Hn|].
  repeat constructor. eexists. reflexivity.
Qed.

Lemma filter_Forall {A : Type} (P : A -> Prop) (f : A -> bool) (l : list A) :
  Forall P l -> Forall P (List.filter f l).
Proof.
  intros HP. apply Forall_forall. intros x [Hx _]%list_elem_of_In%filter_In.
  rewrite Forall_forall in HP. apply HP, list_elem_of_In, Hx.
Qed.

Lemma indeed_names_normalized (soup : doc) cands :
  indeed_names soup = Ok cands -> Forall normalized cands.
Proof.
  unfold indeed_names. intros E.
  eapply second_segment_normalized; [exact E|].
  apply fold_append_texts_normalized.
  apply (fold_cards_normalized indeed_card); [|constructor].
  apply indeed_card_normalized.
Qed.

Lemma linkedin_jobs_list_names_normalized (soup : doc) :
  Forall normalized (linkedin_jobs_list_names soup).
Proof.
  unfold linkedin_jobs_list_names. apply filter_Forall.
  apply (fold_cards_normalized linkedin_card); [|constructor].
  apply linkedin_card_normalized.
Qed.

Lemma fold_snoc (l names : list str) :
  fold_left (fun names n => names ++ [n]) l names = names ++ l.
Proof.
  revert names. induction l as [|n l IH]; intros names; cbn [fold_left].
  - rewrite app_nil_r. reflexivity.
  - rewrite IH, <- app_assoc. reflexivity.
Qed.

Lemma linkedin_names_normalized (soup : doc) cands :
  linkedin_names soup = Ok cands -> Forall normalized cands.
Proof.
  unfold linkedin_names. intros E.
  destruct (append_meta soup _ "og:title") as [n1|] eqn:E1;
    [|discriminate E].
  cbn [bind] in E.
  destruct (append_meta soup n1 "twitter:title") as [n2|] eqn:E2;
    [|discriminate E].
  cbn [bind] in E.
  eapply second_segment_normalized; [exact E|].
  eapply append_meta_normalized; [exact E2|].
  eapply append_meta_normalized; [exact E1|].
  apply fold_append_texts_normalized. rewrite fold_snoc. cbn [app].
  apply linkedin_jobs_list_names_normalized.
Qed.

(** The set of the generic extractor holds normalized title segments
    without job vocabulary. *)
Lemma generic_fold_elem (parts : list str) : forall (X : gset str) x,
  x ∈ fold_left
        (fun names p =>
           if negb (Re.search Pat.job_vocabulary p)
           then {[clean_company_name p]} ∪ names else names)
        parts X ->
  x ∈ X
  \/ exists p, p ∈ parts /\ Re.search Pat.job_vocabulary p = false
               /\ x = clean_company_name p.
Proof.
  induction parts as [|p parts IH]; intros X x Hx; [left; exact Hx|].
  cbn [fold_left] in Hx. apply IH in Hx as [Hx | (q & Hq & Hv & ->)].
  - destruct (Re.search Pat.job_vocabulary p) eqn:E; cbn [negb] in Hx;
      [left; exact Hx|].
    apply elem_of_union in Hx as [->%elem_of_singleton | Hx];
      [|left; exact Hx].
    right. exists p. split; [left | split; [exact E | reflexivity]].
  - right. exists q. split; [right; exact Hq | split; [exact Hv | reflexivity]].
Qed.

Lemma generic_names_elem (soup : doc) x :
  x ∈ generic_names soup ->
  exists p, p ∈ title_segments (title_text soup)
            /\ Re.search Pat.job_vocabulary p = false
            /\ x = clean_company_name p.
Proof.
  unfold generic_names. destruct (truthy (title_text soup)).
  - intros [C | Hp]%generic_fold_elem; [set_solver | exact Hp].
  - set_solver.
Qed.

(** X3: every name that the dispatcher returns is the normalization of some
    text of the page, is not empty, has no whitespace at its ends and is
    not classified as noise. *)
Theorem extract_company_names_clean url html names p :
  extract_company_names url html = Ok (names, p) ->
  forall n, n ∈ names ->
    normalized n /\ n <> [] /\ strip n = n /\ looks_like_noise n = false.
Proof.
  intros E n Hn.
  destruct (extract_company_names_parsed _ _ _ E) as [soup Hdoc].
  assert (exists cands,
            names = dedupe_preserve_order cands
            /\ Forall normalized cands
            /\ Forall (fun x => looks_like_noise x = false) cands)
    as (cands & -> & Hc & Hf).
  { destruct (extract_company_names_delegates url html) as [D | [D | D]];
      rewrite D in E.
    - destruct (extract_from_indeed_names html soup Hdoc) as (cands & Hi & E').
      rewrite E' in E. injection E as <- _. eexists. split; [reflexivity|].
      split; [apply filter_Forall, (indeed_names_normalized _ _ Hi)|].
      apply Forall_forall.
      intros x [_ [_ Hx%negb_true_iff]%andb_true_iff]%list_elem_of_In%filter_In.
      exact Hx.
    - destruct (extract_from_linkedin_names html url soup Hdoc)
        as [(_ & _ & E') | (cands & Hl & E')];
        rewrite E' in E; injection E as <- _; eexists;
        (split; [reflexivity|]).
      + split; [apply linkedin_jobs_list_names_normalized|].
        apply Forall_forall. unfold linkedin_jobs_list_names.
        intros x [_ Hx]%list_elem_of_In%filter_In.
        unfold is_linkedin_name in Hx.
        apply andb_true_iff in Hx as [_ Hx%negb_true_iff]. exact Hx.
      + split; [apply filter_Forall, (linkedin_names_normalized _ _ Hl)|].
        apply Forall_forall. intros x [_ Hx]%list_elem_of_In%filter_In.
        unfold is_linkedin_name in Hx.
        apply andb_true_iff in Hx as [_ Hx%negb_true_iff]. exact Hx.
    - unfold extract_generic in E. rewrite Hdoc in E. cbn [bind] in E.
      injection E as <- _.
      eexists. split; [reflexivity|]. split.
      + apply Forall_forall.
        intros x [Hx _]%list_elem_of_In%filter_In.
        apply list_elem_of_In in Hx. rewrite set_iter_perm in Hx.
        apply elem_of_elements, generic_names_elem in Hx as (q & _ & _ & ->).
        eexists. reflexivity.
      + apply Forall_forall.
        intros x [_ Hx%negb_true_iff]%list_elem_of_In%filter_In. exact Hx. }
  apply dedupe_elem in Hn as (x & Hx & -> & Hne).
  rewrite Forall_forall in Hc, Hf.
  rewrite (normalized_strip x (Hc x Hx)) in *.
  split; [apply Hc, Hx|]. split; [exact Hne|].
  split; [apply normalized_strip, Hc, Hx | apply Hf, Hx].
Qed.

End Names.

Lemma length_filter_le {A : Type} (f : A -> bool) (l : list A) :
  length (List.filter f l) <= length l.
Proof. apply sublist_length, filter_sublist. Qed.

Lemma length_dedupe_le (l : list str) :
  length (dedupe_preserve_order l) <= length l.
Proof.
  rewrite dedupe_kept, <- (length_map strip l).
  apply sublist_length, kept_sublist.
Qed.

Lemma split_go_pieces r s : forall prev cur skip p,
  p ∈ Re.split_go r prev s cur skip ->
  r = Pat.title_separator ->
  forallb (fun c => negb (char_in (lit "-|") c)) cur = true ->
  forallb (fun c => negb (char_in (lit "-|") c)) p = true.
Proof.
  induction s as [|c s IH]; intros prev cur skip p Hp -> Hcur.
  - cbn [Re.split_go] in Hp. apply list_elem_of_singleton in Hp as ->.
    rewrite forallb_forall in *. intros x Hx%in_rev. apply Hcur, Hx.
  - cbn [Re.split_go] in Hp. destruct skip as [|k].
    + rewrite match_at_title_separator in Hp.
      destruct (char_in (lit "-|") c) eqn:Ec.
      * destruct (length (c :: s) - length s) eqn:El.
        { cbn [length] in El. lia. }
        apply elem_of_cons in Hp as [-> | Hp].
        { rewrite forallb_forall in *. intros x Hx%in_rev. apply Hcur, Hx. }
        eapply IH; [exact Hp | reflexivity | reflexivity].
      * eapply IH; [exact Hp | reflexivity|].
        cbn [forallb]. rewrite Ec, Hcur. reflexivity.
    + eapply IH; [exact Hp | reflexivity | exact Hcur].
Qed.

(** A title segment holds no hyphen and no pipe, is stripped and is not
    empty. *)
Lemma title_segments_elem title p :
  p ∈ title_segments title ->
  forallb (fun c => negb (char_in (lit "-|") c)) p = true
  /\ strip p = p /\ p <> [].
Proof.
  unfold title_segments.
  intros [Hin Hp]%list_elem_of_In%filter_In.
  apply list_elem_of_In, list_elem_of_fmap in Hin as (q & -> & Hq).
  split; [|split; [apply strip_idem | destruct (strip q); discriminate]].
  pose proof (split_go_pieces _ _ _ _ _ _ Hq eq_refl eq_refl) as Hs.
  clear Hq. rename Hs into Hq.
  unfold strip, strip_by.
  destruct (rstrip_by_prefix isspace (lstrip_by isspace q)) as (u & Hu & _).
  destruct (lstrip_by_suffix isspace q) as (v & Hv & _).
  rewrite Hv, forallb_app in Hq. apply andb_true_iff in Hq as [_ Hq].
  rewrite Hu, forallb_app in Hq. apply andb_true_iff in Hq as [Hq _].
  exact Hq.
Qed.

Section Labels.
Context {doc elem : Type} `{!Soup doc elem} `{!Host}.

Lemma length_fold_cards (f : elem -> list str) (cards : list elem) :
  (forall card, length (f card) <= 1) ->
  forall names,
    length (fold_left (fun names card => names ++ f card) cards names)
    <= length names + length cards.
Proof.
  intros Hf. induction cards as [|card cards IH]; intros names;
    cbn [fold_left length]; [lia|].
  specialize (IH (names ++ f card)). rewrite length_app in IH.
  specialize (Hf card). lia.
Qed.

Lemma length_linkedin_card (li : elem) : length (linkedin_card li) <= 1.
Proof.
  unfold linkedin_card.
  repeat match goal with
         | |- context [if ?b then _ else _] => destruct b
         end; cbn; lia.
Qed.

(** Only the LinkedIn extractor gives a LinkedIn label. *)
Lemma linkedin_label_delegates url html names p :
  extract_company_names url html = Ok (names, p) ->
  p = linkedin_list \/ p = linkedin_fallback ->
  extract_from_linkedin html url = Ok (names, p).
Proof.
  intros E Hp.
  destruct (extract_company_names_parsed _ _ _ E) as [soup Hdoc].
  destruct (extract_company_names_delegates url html) as [D | [D | D]];
    rewrite D in E; [| exact E |].
  - destruct (extract_from_indeed_ok html soup Hdoc) as [c Hc].
    rewrite Hc in E. injection E as _ <-. destruct Hp; discriminate.
  - unfold extract_generic in E. rewrite Hdoc in E. cbn [bind] in E.
    injection E as _ <-. destruct Hp; discriminate.
Qed.

(** X4: under the two LinkedIn labels no returned name is the word
    [linkedin], in whatever case. *)
Theorem linkedin_names_never_the_brand url html names p :
  extract_company_names url html = Ok (names, p) ->
  p = linkedin_list \/ p = linkedin_fallback ->
  forall n, n ∈ names -> lower n <> lit "linkedin".
Proof.
  intros E Hp n Hn.
  destruct (extract_company_names_parsed _ _ _ E) as [soup Hdoc].
  apply (linkedin_label_delegates _ _ _ _ E) in Hp. clear E.
  assert (exists cands,
            names = dedupe_preserve_order cands
            /\ Forall normalized cands
            /\ Forall (fun x => is_linkedin_name x = true) cands)
    as (cands & -> & Hc & Hf).
  { destruct (extract_from_linkedin_names html url soup Hdoc)
      as [(_ & _ & E') | (cands & Hl & E')];
      rewrite E' in Hp; injection Hp as <- _; eexists;
      (split; [reflexivity|]).
    - split; [apply linkedin_jobs_list_names_normalized|].
      apply Forall_forall. unfold linkedin_jobs_list_names.
      intros x [_ Hx]%list_elem_of_In%filter_In. exact Hx.
    - split; [apply filter_Forall, (linkedin_names_normalized _ _ Hl)|].
      apply Forall_forall. intros x [_ Hx]%list_elem_of_In%filter_In.
      exact Hx. }
  apply dedupe_elem in Hn as (x & Hx & -> & _).
  rewrite Forall_forall in Hc, Hf.
  rewrite (normalized_strip x (Hc x Hx)).
  specialize (Hf x Hx). unfold is_linkedin_name in Hf.
  apply andb_true_iff in Hf as [Hf _].
  apply andb_true_iff in Hf as [_ Hf%negb_true_iff].
  apply bool_decide_eq_false in Hf. exact Hf.
Qed.

(** X5: the label [linkedin_list] is returned only for a url that the
    detector classifies as a search page, with the de-duplicated names of
    the results list of the parsed markup and nothing else, and never with
    an empty list. *)
Theorem linkedin_list_label_meaning url html names :
  extract_company_names url html = Ok (names, linkedin_list) ->
  is_linkedin_search_page url html = true
  /\ (exists soup : doc,
        BeautifulSoup html = Ok soup
        /\ names = dedupe_preserve_order (linkedin_jobs_list_names soup))
  /\ names <> [].
Proof.
  intros E.
  destruct (extract_company_names_parsed _ _ _ E) as [soup Hdoc].
  apply linkedin_label_delegates in E; [|left; reflexivity].
  destruct (extract_from_linkedin_names html url soup Hdoc)
    as [(Hs & Hne & E') | (cands & _ & E')];
    rewrite E' in E; [|discriminate E].
  injection E as <-. split; [exact Hs|].
  split; [exists soup; split; [exact Hdoc | reflexivity]|].
  pose proof (linkedin_jobs_list_names_clean soup) as Hc.
  destruct (linkedin_jobs_list_names soup) as [|x l];
    [contradiction|].
  apply dedupe_nonempty. destruct (Hc x) as [-> Hx]; [left | exact Hx].
Qed.

(** X6: under the label [linkedin_list] there are at most as many names as
    the results list has entries. *)
Theorem linkedin_list_at_most_one_per_entry url html names :
  extract_company_names url html = Ok (names, linkedin_list) ->
  exists soup : doc,
    BeautifulSoup html = Ok soup
    /\ length names
       <= length (soup_select soup (lit "ul.jobs-search__results-list li")).
Proof.
  intros E.
  destruct (extract_company_names_parsed _ _ _ E) as [soup Hdoc].
  exists soup. split; [exact Hdoc|].
  apply linkedin_label_delegates in E; [|left; reflexivity].
  destruct (extract_from_linkedin_names html url soup Hdoc)
    as [(_ & _ & E') | (cands & _ & E')];
    rewrite E' in E; [|discriminate E].
  injection E as <-.
  pose proof (length_dedupe_le (linkedin_jobs_list_names soup)).
  unfold linkedin_jobs_list_names in *.
  match goal with
  | _ : _ <= length (List.filter ?f ?l) |- _ =>
      pose proof (length_filter_le f l)
  end.
  pose proof (length_fold_cards linkedin_card
                (soup_select soup
                   (lit "ul.jobs-search__results-list li"))
                length_linkedin_card []) as Hl.
  cbn [length] in Hl. lia.
Qed.

(** X7: on Indeed and LinkedIn pages the names are returned in the order of
    the cascade: the result is a subsequence of the list of candidates that
    the extractor has collected. *)
Theorem extract_company_names_cascade_order url html names p :
  extract_company_names url html = Ok (names, p) ->
  exists soup : doc,
    BeautifulSoup html = Ok soup
    /\ match p with
       | indeed =>
           exists cands,
             indeed_names soup = Ok cands /\ sublist names cands
       | linkedin_list => sublist names (linkedin_jobs_list_names soup)
       | linkedin_fallback =>
           exists cands,
             linkedin_names soup = Ok cands /\ sublist names cands
       | generic => True
       end.
Proof.
  intros E.
  destruct (extract_company_names_parsed _ _ _ E) as [soup Hdoc].
  exists soup. split; [exact Hdoc|].
  destruct p; [| | |exact I].
  - destruct (extract_company_names_delegates url html) as [D | [D | D]];
      rewrite D in E.
    + destruct (extract_from_indeed_names html soup Hdoc) as (cands & Hi & E').
      rewrite E' in E. injection E as <-. exists cands.
      split; [exact Hi|].
      apply dedupe_filter_sublist, (indeed_names_normalized _ _ Hi).
    + destruct (extract_from_linkedin_ok html url soup Hdoc)
        as (c & l & Hc & [-> | ->]);
        rewrite Hc in E; discriminate E.
    + unfold extract_generic in E. rewrite Hdoc in E. discriminate E.
  - apply linkedin_label_delegates in E; [|left; reflexivity].
    destruct (extract_from_linkedin_names html url soup Hdoc)
      as [(_ & _ & E') | (cands & _ & E')];
      rewrite E' in E; [|discriminate E].
    injection E as <-.
    rewrite dedupe_kept.
    rewrite <- (map_strip_fixed
                  (linkedin_jobs_list_names soup)) at 2.
    + apply kept_sublist.
    + eapply Forall_impl; [apply linkedin_jobs_list_names_normalized|].
      apply normalized_strip.
  - apply linkedin_label_delegates in E; [|right; reflexivity].
    destruct (extract_from_linkedin_names html url soup Hdoc)
      as [(_ & _ & E') | (cands & Hl & E')];
      rewrite E' in E; [discriminate E|].
    injection E as <-. exists cands. split; [exact Hl|].
    apply dedupe_filter_sublist, (linkedin_names_normalized _ _ Hl).
Qed.

(** X8: on a generic page whose title is a text over code points below
    256, as all the strings here, so that the hyphen and the pipe are the
    only separators of the source's class that it can hold: every returned
    name is the normalization of a segment of the title that lies between
    hyphens and pipes and holds no job, apply, hiring or career vocabulary;
    without a title nothing is returned. *)
Theorem generic_names_from_title_segments url html names :
  extract_company_names url html = Ok (names, generic) ->
  exists soup : doc,
    BeautifulSoup html = Ok soup
    /\ (forall n, n ∈ names ->
          exists p,
            p ∈ title_segments (title_text soup)
            /\ forallb (fun c => negb (char_in (lit "-|") c)) p = true
            /\ Re.search Pat.job_vocabulary p = false
            /\ n = clean_company_name p)
    /\ (title_text soup = [] -> names = []).
Proof.
  intros E.
  destruct (extract_company_names_parsed _ _ _ E) as [soup Hdoc].
  exists soup. split; [exact Hdoc|].
  assert (extract_generic html = Ok (names, generic)) as G.
  { destruct (extract_company_names_delegates url html) as [D | [D | D]];
      rewrite D in E; [| | exact E].
    - destruct (extract_from_indeed_ok html soup Hdoc) as [c Hc].
      rewrite Hc in E. discriminate E.
    - destruct (extract_from_linkedin_ok html url soup Hdoc)
        as (c & l & Hc & [-> | ->]);
        rewrite Hc in E; discriminate E. }
  clear E. unfold extract_generic in G. rewrite Hdoc in G. cbn [bind] in G.
  injection G as <-. split.
  - intros n (x & Hx & -> & _)%dedupe_elem.
    apply list_elem_of_In, filter_In in Hx as [Hx _].
    apply list_elem_of_In in Hx. rewrite set_iter_perm in Hx.
    apply elem_of_elements, generic_names_elem in Hx as (q & Hq & Hv & ->).
    exists q. rewrite clean_strip.
    destruct (title_segments_elem _ _ Hq) as (Hsep & _ & _). auto.
  - intros Ht. unfold generic_names. rewrite Ht. cbn [truthy].
    rewrite set_iter_empty. reflexivity.
Qed.

End Labels.

(** ** Hosts *)

Lemma filter_fixed {A : Type} (f : A -> bool) (l : list A) :
  forallb f l = true -> List.filter f l = l.
Proof.
  induction l as [|a l IH]; [reflexivity|]. cbn [forallb List.filter].
  intros [-> Hl]%andb_true_iff. rewrite (IH Hl). reflexivity.
Qed.

Lemma find_app_skip p (a b : str) :
  forallb (fun c => negb (p c)) a = true ->
  Url.find p (a ++ b) = (fun i => length a + i) <$> Url.find p b.
Proof.
  induction a as [|c a IH]; cbn [forallb app Url.find length].
  - intros _. destruct (Url.find p b); reflexivity.
  - intros [Hc Ha]%andb_true_iff. apply negb_true_iff in Hc.
    rewrite Hc, (IH Ha). destruct (Url.find p b); reflexivity.
Qed.

Lemma host_char_spec c :
  host_char c = true ->
  (code c <? 128) = true
  /\ char_in (lit "/?#") c = false
  /\ Ascii.eqb "[" c = false /\ Ascii.eqb "]" c = false
  /\ negb (char_in [ascii_of_nat 9; ascii_of_nat 13; ascii_of_nat 10] c)
     = true.
Proof.
  unfold host_char. intros [[H1 H2]%andb_true_iff H3]%andb_true_iff.
  apply negb_true_iff in H2. cbn in H2.
  repeat (apply orb_false_iff in H2 as [? H2]).
  repeat split; try assumption. cbn.
  repeat (apply orb_false_iff; split); assumption.
Qed.

Lemma char_in_false_forall (chars s : str) a :
  Forall (fun c => Ascii.eqb a c = false) s -> char_in s a = false.
Proof.
  induction 1 as [|c s Hc _ IH]; [reflexivity|].
  cbn [char_in existsb]. fold (char_in s a).
  rewrite Ascii.eqb_sym, Hc, IH. reflexivity.
Qed.

(** The network location of [scheme://host] followed by nothing or by a
    path, a query or a fragment. *)
Lemma netloc_of_host `{Host} (scheme : str) (host tail : str) :
  scheme = lit "http" \/ scheme = lit "https" ->
  forallb host_char host = true ->
  tail = [] \/ (exists c t, tail = c :: t /\ char_in (lit "/?#") c = true) ->
  Url.netloc (scheme ++ lit "://" ++ host ++ tail) = Ok host.
Proof.
  intros Hs Hh Ht.
  assert (Forall (fun c => host_char c = true) host) as HF
    by (apply Forall_forall; intros c Hc%list_elem_of_In;
        rewrite forallb_forall in Hh; apply Hh, Hc).
  set (unsafe := fun c =>
         negb (char_in [ascii_of_nat 9; ascii_of_nat 13; ascii_of_nat 10] c)).
  assert (List.filter unsafe host = host) as Hf.
  { apply filter_fixed, forallb_forall. intros c Hc.
    rewrite forallb_forall in Hh. apply host_char_spec, Hh, Hc. }
  assert (forallb (fun c => negb (char_in (lit "/?#") c)) host = true) as Hd.
  { apply forallb_forall. intros c Hc. rewrite forallb_forall in Hh.
    destruct (host_char_spec c (Hh c Hc)) as (_ & -> & _). reflexivity. }
  assert (exists tail',
            List.filter unsafe tail = tail'
            /\ Url.find (char_in (lit "/?#")) (host ++ tail')
               = (if tail' is [] then None else Some (length host)))
    as (tail' & Hft & Hfind).
  { eexists. split; [reflexivity|]. rewrite (find_app_skip _ _ _ Hd).
    destruct Ht as [-> | (c & t & -> & Hc)]; [reflexivity|].
    cbn [List.filter].
    assert (unsafe c = true) as ->.
    { unfold char_in in Hc. cbn [lit list_ascii_of_string existsb] in Hc.
      subst unsafe.
      repeat (apply orb_true_iff in Hc as [Hc | Hc]);
        try discriminate Hc; apply Ascii.eqb_eq in Hc; subst c; reflexivity. }
    cbn [Url.find]. rewrite Hc. cbn. rewrite Nat.add_0_r. reflexivity. }
  assert (char_in host "[" = false /\ char_in host "]" = false
          /\ Url.isascii host = true) as (Hlb & Hrb & Hascii).
  { split; [|split].
    - apply (char_in_false_forall host). eapply Forall_impl; [exact HF|].
      intros c Hc. apply (host_char_spec c Hc).
    - apply (char_in_false_forall host). eapply Forall_impl; [exact HF|].
      intros c Hc. apply (host_char_spec c Hc).
    - apply forallb_forall. intros c Hc. rewrite forallb_forall in Hh.
      apply (host_char_spec c (Hh c Hc)). }
  assert (Url.splitnetloc (lit "//" ++ host ++ tail') = host) as Hsplit.
  { unfold Url.splitnetloc.
    change (drop 2 (lit "//" ++ host ++ tail')) with (host ++ tail').
    cbv zeta. rewrite Hfind. destruct tail' as [|c' t'];
      [apply app_nil_r | apply take_app_length]. }
  assert (lstrip_by (fun c => code c <=? 32)
            (scheme ++ lit "://" ++ host ++ tail)
          = scheme ++ lit "://" ++ host ++ tail) as Hstrip
    by (destruct Hs as [-> | ->]; reflexivity).
  assert (List.filter unsafe (scheme ++ lit "://" ++ host ++ tail)
          = scheme ++ lit "://" ++ host ++ tail') as Hfilter.
  { rewrite !List.filter_app, Hf, Hft. destruct Hs as [-> | ->]; reflexivity. }
  assert (Url.drop_scheme (scheme ++ lit "://" ++ host ++ tail')
          = lit "//" ++ host ++ tail') as Hdrop
    by (destruct Hs as [-> | ->]; reflexivity).
  unfold Url.netloc. fold unsafe. rewrite Hstrip, Hfilter, Hdrop, Hsplit.
  rewrite Hlb, Hrb, Hascii. cbn. rewrite ?andb_false_r. reflexivity.
Qed.

Section Hosts.
Context {doc elem : Type} `{!Soup doc elem} `{!Host}.

(** X9.  For a url [http://host...] or [https://host...] whose host is
    written in ASCII without brackets, the host ending at the first [/],
    [?] or [#] or at the end of the url, [domain] is the host in lower
    case without one leading [www.], and the url is not a local path. *)
Theorem domain_of_remote_url (scheme host tail : str) :
  scheme = lit "http" \/ scheme = lit "https" ->
  forallb host_char host = true ->
  tail = [] \/ (exists c t, tail = c :: t /\ char_in (lit "/?#") c = true) ->
  domain (scheme ++ lit "://" ++ host ++ tail)
  = (if startswith (lit "www.") (lower host)
     then drop 4 (lower host) else lower host)
  /\ is_local_path (scheme ++ lit "://" ++ host ++ tail) = false.
Proof.
  intros Hs Hh Ht. split.
  - unfold domain. rewrite (netloc_of_host scheme host tail Hs Hh Ht).
    reflexivity.
  - destruct Hs as [-> | ->]; reflexivity.
Qed.

(** X10.  A url that starts with [file:///] is a local path with an empty
    domain, so it is never taken for a LinkedIn search page, whatever the
    markup, and the dispatcher never answers with the label of the
    results list for it. *)
Theorem file_url_never_a_search_page (rest html : str) :
  is_local_path (lit "file:///" ++ rest) = true
  /\ domain (lit "file:///" ++ rest) = []
  /\ is_linkedin_search_page (lit "file:///" ++ rest) html = false
  /\ forall names p,
       extract_company_names (lit "file:///" ++ rest) html = Ok (names, p) ->
       p <> linkedin_list.
Proof.
  assert (domain (lit "file:///" ++ rest) = []) as Hd by reflexivity.
  assert (is_linkedin_search_page (lit "file:///" ++ rest) html = false)
    as Hp by (apply search_page_needs_host; rewrite Hd; reflexivity).
  repeat split; try assumption; try reflexivity.
  intros names p E ->.
  destruct (extract_company_names_parsed _ _ _ E) as [soup Hdoc].
  apply linkedin_label_delegates in E; [|left; reflexivity].
  destruct (extract_from_linkedin_names html (lit "file:///" ++ rest) soup
              Hdoc) as [(Hs & _) | (cands & _ & E')].
  - rewrite Hp in Hs. discriminate Hs.
  - rewrite E' in E. discriminate E.
Qed.

End Hosts.

(** ** Reading the urls *)

Section ReadUrls.
Context `{!Host} `{!Files}.

Lemma read_urls_loop_entries (collected : list str) :
  forall (seen : gset str) (out : list str),
  read_urls_loop collected seen out
  = out ++ map (fun u => fst (norm_key u)) (unique_entries seen collected).
Proof.
  induction collected as [|u rest IH]; intros seen out;
    cbn [read_urls_loop unique_entries map].
  - symmetry. apply app_nil_r.
  - destruct (negb (truthy (unquote u))); [apply IH|].
    destruct (norm_key (unquote u)) as [norm k] eqn:E. cbn [fst snd].
    destruct (negb (bool_decide (k ∈ seen))); [|apply IH].
    rewrite IH. cbn [map]. rewrite E, <- app_assoc. reflexivity.
Qed.

Lemma unique_entries_elem (e : str) (collected : list str) :
  forall seen : gset str,
  e ∈ unique_entries seen collected ->
  e <> [] /\ (snd (norm_key e) ∉ seen)
  /\ exists u, u ∈ collected /\ e = unquote u.
Proof.
  induction collected as [|u rest IH]; intros seen; cbn [unique_entries].
  - intros Hin. inversion Hin.
  - destruct (truthy (unquote u)) eqn:Ht; cbn [negb].
    + destruct (bool_decide (snd (norm_key (unquote u)) ∈ seen)) eqn:Hs;
        cbn [negb].
      * intros Hin. apply IH in Hin as (? & ? & x & ? & ?).
        repeat split; try assumption.
        exists x. split; [right|]; assumption.
      * apply bool_decide_eq_false in Hs.
        intros [-> | Hin]%elem_of_cons.
        -- repeat split; [intros E; rewrite E in Ht; discriminate Ht|exact Hs|].
           exists u. split; [left|reflexivity].
        -- apply IH in Hin as (? & Hn & x & ? & ?).
           repeat split; [assumption|set_solver|].
           exists x. split; [right|]; assumption.
    + intros Hin. apply IH in Hin as (? & ? & x & ? & ?).
      repeat split; try assumption.
      exists x. split; [right|]; assumption.
Qed.

Lemma unique_entries_NoDup (collected : list str) :
  forall seen : gset str,
  NoDup (map (fun e => snd (norm_key e)) (unique_entries seen collected)).
Proof.
  induction collected as [|u rest IH]; intros seen; cbn [unique_entries].
  - constructor.
  - destruct (negb (truthy (unquote u))); [apply IH|].
    destruct (negb (bool_decide (snd (norm_key (unquote u)) ∈ seen)));
      [|apply IH].
    cbn [map]. constructor; [|apply IH].
    intros (e & Hk & Hin)%list_elem_of_fmap.
    apply unique_entries_elem in Hin as (_ & Hn & _).
    rewrite <- Hk in Hn. set_solver.
Qed.

Lemma unique_entries_sublist (collected : list str) :
  forall seen : gset str,
  sublist (unique_entries seen collected) (map unquote collected).
Proof.
  induction collected as [|u rest IH]; intros seen;
    cbn [unique_entries map].
  - constructor.
  - destruct (negb (truthy (unquote u))); [apply sublist_cons, IH|].
    destruct (negb (bool_decide (snd (norm_key (unquote u)) ∈ seen)));
      [apply sublist_skip, IH | apply sublist_cons, IH].
Qed.

Lemma unique_entries_complete (collected : list str) :
  forall (seen : gset str) u,
  u ∈ collected -> unquote u <> [] ->
  snd (norm_key (unquote u)) ∈ seen
  \/ exists e, e ∈ unique_entries seen collected
               /\ snd (norm_key e) = snd (norm_key (unquote u)).
Proof.
  induction collected as [|x rest IH]; intros seen u Hin Hu.
  - inversion Hin.
  - cbn [unique_entries]. apply elem_of_cons in Hin as [-> | Hin].
    + destruct (unquote x) as [|c t] eqn:Ex; [contradiction|].
      cbn [truthy negb]. rewrite <- Ex.
      destruct (bool_decide (snd (norm_key (unquote x)) ∈ seen)) eqn:Hs;
        cbn [negb].
      * left. apply bool_decide_eq_true in Hs. exact Hs.
      * right. exists (unquote x). split; [left|reflexivity].
    + destruct (negb (truthy (unquote x))); [apply IH; assumption|].
      destruct (bool_decide (snd (norm_key (unquote x)) ∈ seen)) eqn:Hs;
        cbn [negb]; [apply IH; assumption|].
      destruct (IH ({[snd (norm_key (unquote x))]} ∪ seen) u Hin Hu)
        as [Hk | (e & He & Hk)].
      * apply elem_of_union in Hk as [Hk%elem_of_singleton | Hk];
          [|left; exact Hk].
        right. exists (unquote x). split; [left|symmetry; exact Hk].
      * right. exists e. split; [right|]; assumption.
Qed.

Lemma unique_entries_app (a : list str) :
  forall (seen : gset str) (b : list str),
  exists seen' : gset str,
    unique_entries seen (a ++ b)
    = unique_entries seen a ++ unique_entries seen' b.
Proof.
  induction a as [|u a IH]; intros seen b; cbn [app unique_entries].
  - exists seen. reflexivity.
  - destruct (negb (truthy (unquote u))); [apply IH|].
    destruct (negb (bool_decide (snd (norm_key (unquote u)) ∈ seen)));
      [|apply IH].
    destruct (IH ({[snd (norm_key (unquote u))]} ∪ seen) b) as [seen' ->].
    exists seen'. reflexivity.
Qed.

(** An entry that the loop keeps is the first of the unquoted entries
    with its key. *)
Lemma unique_entries_first (e : str) (collected : list str) :
  forall seen : gset str,
  e ∈ unique_entries seen collected ->
  exists pre post,
    map unquote collected = pre ++ e :: post
    /\ Forall (fun x => x <> [] -> snd (norm_key x) <> snd (norm_key e)) pre.
Proof.
  induction collected as [|u rest IH]; intros seen; cbn [unique_entries map].
  - intros Hin. inversion Hin.
  - destruct (truthy (unquote u)) eqn:Ht; cbn [negb].
    + destruct (bool_decide (snd (norm_key (unquote u)) ∈ seen)) eqn:Hs;
        cbn [negb].
      * intros Hin. apply bool_decide_eq_true in Hs.
        pose proof (unique_entries_elem _ _ _ Hin) as (_ & Hn & _).
        apply IH in Hin as (pre & post & -> & Hpre).
        exists (unquote u :: pre), post. split; [reflexivity|].
        constructor; [|exact Hpre]. intros _ Hk. rewrite Hk in Hs.
        contradiction.
      * intros [-> | Hin]%elem_of_cons.
        -- exists [], (map unquote rest). split; [reflexivity | constructor].
        -- pose proof (unique_entries_elem _ _ _ Hin) as (_ & Hn & _).
           apply IH in Hin as (pre & post & -> & Hpre).
           exists (unquote u :: pre), post. split; [reflexivity|].
           constructor; [|exact Hpre]. intros _ Hk. apply Hn.
           rewrite <- Hk. set_solver.
    + intros Hin. apply IH in Hin as (pre & post & -> & Hpre).
      exists (unquote u :: pre), post. split; [reflexivity|].
      constructor; [|exact Hpre]. intros Hx.
      destruct (unquote u); [contradiction | discriminate Ht].
Qed.

(** What [read_urls] collects before its second loop: the urls of the
    command line, then the lines of the file that are not blank,
    stripped. *)
Lemma read_urls_collected (urls : list str) (urls_file : option str)
    (out : list str) :
  read_urls urls urls_file = Some out ->
  exists more : list str,
    out = read_urls_loop (urls ++ more) ∅ []
    /\ (more = []
        \/ exists file lines,
             urls_file = Some file /\ read_lines file = Some lines
             /\ more = List.filter truthy (map strip lines)).
Proof.
  unfold read_urls.
  assert ((if truthy urls then [] ++ urls else []) = urls) as ->
    by (destruct urls; reflexivity).
  destruct urls_file as [file|]; cbn.
  - destruct (truthy file && path_exists file).
    + destruct (read_lines file) as [lines|] eqn:El; cbn; [|discriminate].
      intros [= <-]. eexists. split; [reflexivity|]. right.
      exists file, lines. repeat split. exact El.
    + intros [= <-]. exists []. rewrite app_nil_r.
      split; [reflexivity | left; reflexivity].
  - intros [= <-]. exists []. rewrite app_nil_r.
    split; [reflexivity | left; reflexivity].
Qed.

(** X11.  The targets that [read_urls] returns are the normal forms of
    entries, unquoted and not blank, whose keys are pairwise distinct; and
    every url of the command line that is not blank has its key among
    them.  The entries are taken, in their order, from the urls of the
    command line followed by the stripped lines of the file, unquoted. *)
Theorem read_urls_distinct_targets (urls : list str)
    (urls_file : option str) (out : list str) :
  read_urls urls urls_file = Some out ->
  exists entries : list str,
    out = map (fun e => fst (norm_key e)) entries
    /\ Forall (fun e => e <> []) entries
    /\ NoDup (map (fun e => snd (norm_key e)) entries)
    /\ (forall u, u ∈ urls -> unquote u <> [] ->
          exists e, e ∈ entries
                    /\ snd (norm_key e) = snd (norm_key (unquote u)))
    /\ exists more : list str,
         sublist entries (map unquote (urls ++ more))
         /\ (more = []
             \/ exists file lines,
                  urls_file = Some file /\ read_lines file = Some lines
                  /\ more = List.filter truthy (map strip lines)).
Proof.
  intros (more & -> & Hmore)%read_urls_collected.
  exists (unique_entries ∅ (urls ++ more)).
  split; [apply read_urls_loop_entries|]. split; [|split; [|split]].
  - apply Forall_forall. intros e He.
    apply unique_entries_elem in He as (He & _). exact He.
  - apply unique_entries_NoDup.
  - intros u Hu Hq.
    destruct (unique_entries_complete (urls ++ more) ∅ u) as [Hk | Hk];
      [apply elem_of_app; left; exact Hu | exact Hq | set_solver | exact Hk].
  - exists more. split; [apply unique_entries_sublist | exact Hmore].
Qed.

(** X12.  The urls of the command line come first: what [read_urls]
    returns with a file of urls starts with what it returns without one. *)
Theorem read_urls_file_appends (urls : list str) (urls_file : option str)
    (out : list str) :
  read_urls urls urls_file = Some out ->
  exists first more : list str,
    read_urls urls None = Some first /\ out = first ++ more.
Proof.
  intros (more & -> & _)%read_urls_collected.
  destruct (unique_entries_app urls ∅ more) as [seen' E].
  exists (read_urls_loop urls ∅ []),
         (map (fun u => fst (norm_key u)) (unique_entries seen' more)).
  split.
  - unfold read_urls. destruct urls; reflexivity.
  - rewrite !read_urls_loop_entries, E, map_app. reflexivity.
Qed.

(** X13.  When every url of the command line, once unquoted, holds [://],
    the targets read without a file are a sublist of the unquoted urls in
    which no two are equal up to case, every url is there up to case, and
    of the urls that are equal up to case the first spelling is the one
    kept: no unquoted url before a target equals it up to case. *)
Theorem read_urls_remote_up_to_case (urls out : list str) :
  Forall (fun u => contains (lit "://") (unquote u) = true) urls ->
  read_urls urls None = Some out ->
  sublist out (map unquote urls)
  /\ NoDup (map lower out)
  /\ (forall u, u ∈ urls -> unquote u <> [] ->
        exists e, e ∈ out /\ lower e = lower (unquote u))
  /\ forall e, e ∈ out ->
       exists pre post,
         map unquote urls = pre ++ e :: post
         /\ Forall (fun x => lower x <> lower e) pre.
Proof.
  intros Hr E.
  assert (forall e, e ∈ map unquote urls -> norm_key e = (e, lower e))
    as Hnk.
  { intros e (u & -> & Hu)%list_elem_of_fmap.
    rewrite Forall_forall in Hr. unfold norm_key.
    rewrite (Hr u Hu). reflexivity. }
  assert (read_urls urls None = Some (read_urls_loop urls ∅ [])) as E'
    by (unfold read_urls; destruct urls; reflexivity).
  rewrite E' in E. injection E as <-.
  rewrite read_urls_loop_entries. cbn [app].
  pose proof (unique_entries_sublist urls ∅) as Hsub.
  assert (forall e, e ∈ unique_entries ∅ urls -> norm_key e = (e, lower e))
    as Hnk'.
  { intros e He. apply Hnk. exact (elem_of_sublist _ _ _ He Hsub). }
  assert (map (fun u => fst (norm_key u)) (unique_entries ∅ urls)
          = unique_entries ∅ urls) as ->.
  { rewrite <- (map_id (unique_entries ∅ urls)) at 2.
    apply map_ext_in. intros e He%list_elem_of_In.
    rewrite (Hnk' e He). reflexivity. }
  split; [exact Hsub|]. split; [|split].
  - assert (map lower (unique_entries ∅ urls)
            = map (fun e => snd (norm_key e)) (unique_entries ∅ urls)) as ->.
    { apply map_ext_in. intros e He%list_elem_of_In.
      rewrite (Hnk' e He). reflexivity. }
    apply unique_entries_NoDup.
  - intros u Hu Hq.
    destruct (unique_entries_complete urls ∅ u Hu Hq) as [Hk | (e & He & Hk)];
      [set_solver|].
    exists e. split; [exact He|].
    rewrite (Hnk' e He) in Hk.
    rewrite (Hnk (unquote u)) in Hk
      by (apply list_elem_of_fmap; exists u; split; [reflexivity|exact Hu]).
    exact Hk.
  - intros e He.
    destruct (unique_entries_first e urls ∅ He) as (pre & post & Hu & Hpre).
    exists pre, post. split; [exact Hu|].
    apply Forall_forall. intros x Hx.
    assert (x ∈ map unquote urls) as Hx'
      by (rewrite Hu; apply elem_of_app; left; exact Hx).
    rewrite Forall_forall in Hpre. specialize (Hpre x Hx).
    rewrite (Hnk x Hx'), (Hnk' e He) in Hpre. apply Hpre.
    apply list_elem_of_fmap in Hx' as (u & -> & Hu').
    rewrite Forall_forall in Hr. specialize (Hr u Hu').
    intros E. rewrite E in Hr. discriminate Hr.
Qed.

End ReadUrls.

(** ** Fetching *)

Lemma replace_go_absent (old new : str) (s : str) :
  contains old s = false -> replace_go old new s 0 = s.
Proof.
  induction s as [|c s IH]; [reflexivity|].
  cbn [contains replace_go]. intros [E1 E2]%orb_false_iff.
  rewrite E1, (IH E2). reflexivity.
Qed.

Section Fetch.
Context `{!Host} `{!Files}.

(** X14.  For a path [p] in which [file://] does not occur, [fetch] of
    [file://p] reads the file [p], and [fetch] of [p] itself, when [p] is a
    local path, reads [p]: a scheme written in capitals is not taken off.
    The text is empty when the file cannot be read. *)
Theorem fetch_reads_the_path (p : str) :
  contains (lit "file://") p = false ->
  fetch (lit "file://" ++ p) = default [] (read_text p)
  /\ (is_local_path p = true -> fetch p = default [] (read_text p)).
Proof.
  intros Hp. split.
  - unfold fetch.
    assert (is_local_path (lit "file://" ++ p) = true) as -> by reflexivity.
    assert (replace (lit "file://") [] (lit "file://" ++ p)
            = replace_go (lit "file://") [] p 0) as -> by reflexivity.
    rewrite (replace_go_absent _ _ _ Hp).
    destruct (read_text p); reflexivity.
  - intros Hl. unfold fetch, replace. rewrite Hl.
    rewrite (replace_go_absent _ _ _ Hp).
    destruct (read_text p); reflexivity.
Qed.

End Fetch.

(** ** The main loop *)

Lemma index_source (p : Provenance) :
  index (Py.split (lit "_") (lit (label_of p))) 0 = Ok (source_of p).
Proof. destruct p; reflexivity. Qed.

Lemma dedupe_rows_names (rows : list (str * str * str)) :
  forall (seen : gset str) (out : list (str * str * str)),
  Forall (fun r => strip (fst (fst r)) = fst (fst r) /\ fst (fst r) <> [])
    rows ->
  map (fun r => fst (fst r)) (dedupe_rows rows seen out)
  = map (fun r => fst (fst r)) out
    ++ kept seen (map (fun r => fst (fst r)) rows).
Proof.
  induction rows as [|[[n src] url] rows IH]; intros seen out Hrows;
    cbn [dedupe_rows map kept fst].
  - symmetry. apply app_nil_r.
  - apply Forall_cons in Hrows as [[Hs Hn] Hrows]. cbn [fst] in Hs, Hn.
    fold (key n).
    assert (truthy (key n) = true) as ->.
    { rewrite key_truthy, Hs. destruct n; [contradiction|reflexivity]. }
    cbn [negb orb].
    destruct (bool_decide (key n ∈ seen)); [apply IH, Hrows|].
    rewrite (IH _ _ Hrows), map_app, Hs, <- app_assoc. reflexivity.
Qed.

Lemma dedupe_rows_elem (rows : list (str * str * str)) :
  forall (seen : gset str) (out : list (str * str * str)) r,
  r ∈ dedupe_rows rows seen out -> r ∈ out \/ r ∈ rows.
Proof.
  induction rows as [|[[n src] url] rows IH]; intros seen out r;
    cbn [dedupe_rows].
  - intros Hr. left. exact Hr.
  - destruct (bool_decide (strip (lower n) ∈ seen)).
    + intros [Hr | Hr]%IH; [left | right; right]; assumption.
    + intros [Hr | Hr]%IH; [|right; right; assumption].
      apply elem_of_app in Hr as [Hr | Hr%list_elem_of_singleton];
        [left; assumption|].
      right. rewrite Hr. left.
Qed.

Section MainLoop.
Context {doc elem : Type} `{!Soup doc elem} `{!Host} `{!Files}.

Lemma add_names_spec (source_column : bool) (p : Provenance) (u : str)
    (names : list str) :
  forall st : Lists,
  add_names source_column p u names st
  = Ok (if source_column
        then mkLists (all_names st)
               (enriched_rows st ++ map (fun n => (n, source_of p, u)) names)
               (report_rows st)
        else mkLists (all_names st ++ names) (enriched_rows st)
               (report_rows st)).
Proof.
  induction names as [|n names IH]; intros st; cbn [add_names map].
  - destruct st, source_column; cbn; rewrite app_nil_r; reflexivity.
  - destruct source_column.
    + rewrite index_source. cbn [bind]. rewrite IH. cbn.
      rewrite <- app_assoc. reflexivity.
    + cbn [bind]. rewrite IH. cbn. rewrite <- app_assoc. reflexivity.
Qed.

(** The names of a page are stripped and not blank, and de-duplicating
    them again changes nothing. *)
Lemma page_names_kept (u : str) :
  exists cands, page_names u = kept ∅ cands.
Proof.
  unfold page_names. destruct (negb (truthy (fetch u))).
  - exists []. reflexivity.
  - destruct (extract_company_names u (fetch u)) as [[names p]|e] eqn:E;
      [|exists []; reflexivity].
    destruct (extract_company_names_parsed _ _ _ E) as [soup Hdoc].
    destruct (extract_company_names_ok u (fetch u) soup Hdoc)
      as (cands & p' & E').
    rewrite E' in E. injection E as <- _.
    exists cands. apply dedupe_kept.
Qed.

Lemma page_names_stripped (u : str) :
  Forall (fun n => strip n = n /\ n <> []) (page_names u).
Proof.
  destruct (page_names_kept u) as [cands ->]. apply Forall_forall.
  intros n (x & _ & -> & Hk & _)%kept_elem.
  rewrite key_nil in Hk. split; [apply strip_idem | exact Hk].
Qed.

Lemma visit_spec (args : Args) (st : Lists) (u : str) :
  if visit_raises args u then exists e, visit args st u = Raise e
  else
    exists e note,
      visit args st u
      = Ok (mkLists
              (all_names st
               ++ (if args_source_column args then [] else page_names u))
              (enriched_rows st
               ++ (if args_source_column args then page_rows u else []))
              (report_rows st
               ++ [(u, domain u, e, length (page_names u), note)]))
      /\ (note = lit "ok" <-> page_names u <> []).
Proof.
  unfold visit_raises, parser_raises, visit, page_rows, page_names,
    page_source, sleep.
  destruct (truthy (fetch u)) eqn:Hh; cbn [negb andb].
  - destruct (BeautifulSoup (fetch u)) as [soup|e0] eqn:Hdoc; cbn [orb].
    + destruct (extract_company_names_ok u (fetch u) soup Hdoc)
        as (cands & p & E).
      rewrite E. cbn [bind].
      assert (dedupe_preserve_order (dedupe_preserve_order cands)
              = dedupe_preserve_order cands) as Hd
        by (rewrite !dedupe_kept; apply kept_idem).
      assert ((if negb (args_keep_duplicates args)
               then dedupe_preserve_order (dedupe_preserve_order cands)
               else dedupe_preserve_order cands)
              = dedupe_preserve_order cands) as ->
        by (destruct (args_keep_duplicates args); [reflexivity | exact Hd]).
      destruct (dedupe_preserve_order cands) as [|n names] eqn:En.
      * cbn [truthy add_names bind report all_names enriched_rows
             report_rows map length].
        destruct (args_sleep_ok args); cbn [bind negb]; [|eauto].
        eexists _, _. split.
        -- destruct (args_source_column args); rewrite !app_nil_r;
             reflexivity.
        -- destruct (contains (lit "linkedin") (domain u));
             (split; [discriminate | congruence]).
      * rewrite add_names_spec. cbn [truthy bind].
        destruct (args_sleep_ok args); cbn [bind negb]; [|eauto].
        eexists _, _. split.
        -- destruct (args_source_column args); cbn; rewrite ?app_nil_r;
             reflexivity.
        -- split; [discriminate | reflexivity].
    + rewrite (extract_company_names_raises u (fetch u) e0 Hdoc).
      cbn [bind]. eauto.
  - eexists _, _. split.
    + unfold report. cbn [map length].
      destruct (args_source_column args); rewrite !app_nil_r; reflexivity.
    + split; [discriminate | congruence].
Qed.

Lemma visit_all_spec (args : Args) (targets : list str) :
  forall st : Lists,
  if loop_raises args targets
  then exists e, visit_all args targets st = Raise e
  else
    exists rep : list (str * str * str * nat * str),
      visit_all args targets st
      = Ok (mkLists
              (all_names st
               ++ (if args_source_column args then []
                   else concat (map page_names targets)))
              (enriched_rows st
               ++ (if args_source_column args
                   then concat (map page_rows targets) else []))
              (report_rows st ++ rep))
      /\ map (fun '(u, d, _, count, _) => (u, d, count)) rep
         = map (fun u => (u, domain u, length (page_names u))) targets
      /\ Forall (fun '(_, _, _, count, note) =>
                   note = lit "ok" <-> 0 < count) rep.
Proof.
  unfold loop_raises.
  induction targets as [|u targets IH]; intros st;
    cbn [visit_all map concat existsb].
  - exists []. split; [|split; [reflexivity | constructor]].
    destruct (args_source_column args); rewrite !app_nil_r;
      destruct st; reflexivity.
  - pose proof (visit_spec args st u) as Hv.
    destruct (visit_raises args u); cbn [orb].
    + destruct Hv as [e ->]. cbn [bind]. eauto.
    + destruct Hv as (e & note & -> & Hnote). cbn [bind].
      match goal with |- context [visit_all args targets ?s0] =>
        specialize (IH s0) end.
      destruct (existsb (visit_raises args) targets); [exact IH|].
      destruct IH as (rep & -> & Hrep & Hok).
      exists ((u, domain u, e, length (page_names u), note) :: rep).
      cbn [all_names enriched_rows report_rows map]. split; [|split].
      * destruct (args_source_column args);
          rewrite <- ?app_assoc, ?app_nil_r; reflexivity.
      * rewrite Hrep. reflexivity.
      * constructor; [|exact Hok]. rewrite Hnote.
        destruct (page_names u); cbn [length]; split;
          try lia; try congruence; try discriminate.
Qed.

End MainLoop.

Section Main.
Context {doc elem : Type} `{!Soup doc elem} `{!Host} `{!Files}.

Lemma names_of_page_rows (targets : list str) :
  map (fun r => fst (fst r)) (concat (map page_rows targets))
  = concat (map page_names targets).
Proof.
  induction targets as [|u targets IH]; [reflexivity|].
  cbn [map concat]. rewrite map_app, IH. f_equal.
  unfold page_rows. rewrite map_map. cbn [fst]. apply map_id.
Qed.

Lemma page_rows_stripped (targets : list str) :
  Forall (fun r => strip (fst (fst r)) = fst (fst r) /\ fst (fst r) <> [])
    (concat (map page_rows targets)).
Proof.
  induction targets as [|u targets IH]; [constructor|].
  cbn [map concat]. apply Forall_app. split; [|exact IH].
  unfold page_rows. apply Forall_map. cbn [fst]. apply page_names_stripped.
Qed.

(** How [main] ends, from the targets that [read_urls] gives. *)
Lemma main_cases (args : Args) :
  match read_urls (default [] (args_urls args)) (Some (args_urls_file args))
  with
  | None => main args = None
  | Some [] => main args = Some (Exit 1)
  | Some targets =>
      if loop_raises args targets then main args = None
      else
        exists st rep,
          st = mkLists
                 (if args_source_column args then []
                  else concat (map page_names targets))
                 (if args_source_column args
                  then concat (map page_rows targets) else [])
                 rep
          /\ map (fun '(u, d, _, count, _) => (u, d, count)) rep
             = map (fun u => (u, domain u, length (page_names u))) targets
          /\ Forall (fun '(_, _, _, count, note) =>
                       note = lit "ok" <-> 0 < count) rep
          /\ main args
             = Some (Wrote (args_out args, out_rows args (finish args st))
                       (match args_report args with
                        | Some path =>
                            if truthy path
                            then Some (path,
                                       report_file_rows (finish args st))
                            else None
                        | None => None
                        end))
  end.
Proof.
  unfold main.
  destruct (read_urls _ _) as [[|u targets]|]; cbn [mbind option_bind];
    try reflexivity.
  pose proof (visit_all_spec args (u :: targets) (mkLists [] [] [])) as Hv.
  cbn [truthy negb].
  destruct (loop_raises args (u :: targets)).
  - destruct Hv as [e ->]. reflexivity.
  - destruct Hv as (rep & -> & Hrep & Hok).
    eexists _, rep. repeat split; [exact Hrep | exact Hok].
Qed.

Lemma report_rows_finish (args : Args) (st : Lists) :
  report_rows (finish args st) = report_rows st.
Proof.
  unfold finish.
  destruct (args_keep_duplicates args), (args_source_column args);
    reflexivity.
Qed.

(** X15.  [main] lets an exception escape in two cases only: reading the
    file of urls raises, or some target has a text that is not empty and
    either the parser raises on that text or [time.sleep] does not accept
    the pause.  It exits, with status 1, exactly when there is no target.
    In every other case it goes through all the targets and writes its
    output. *)
Theorem main_ends (args : Args) :
  (main args = None
   <-> read_urls (default [] (args_urls args)) (Some (args_urls_file args))
       = None
       \/ exists targets,
            read_urls (default [] (args_urls args))
              (Some (args_urls_file args)) = Some targets
            /\ exists u,
                 u ∈ targets /\ fetch u <> []
                 /\ (args_sleep_ok args = false
                     \/ exists e, BeautifulSoup (fetch u) = Raise e))
  /\ (forall code,
        main args = Some (Exit code)
        <-> code = 1
            /\ read_urls (default [] (args_urls args))
                 (Some (args_urls_file args)) = Some []).
Proof.
  assert (forall targets,
            loop_raises args targets = true
            <-> exists u,
                  u ∈ targets /\ fetch u <> []
                  /\ (args_sleep_ok args = false
                      \/ exists e, BeautifulSoup (fetch u) = Raise e))
    as Hloop.
  { intros targets. unfold loop_raises. rewrite existsb_exists.
    unfold visit_raises, parser_raises. split.
    - intros (u & Hu%list_elem_of_In & Hr). exists u. split; [exact Hu|].
      apply andb_true_iff in Hr as [Ht Hr]. split.
      + intros E. rewrite E in Ht. discriminate Ht.
      + apply orb_true_iff in Hr as [Hr | Hr%negb_true_iff];
          [right | left; exact Hr].
        destruct (BeautifulSoup (fetch u)) as [soup|e]; [discriminate|].
        exists e. reflexivity.
    - intros (u & Hu & Ht & Hr). exists u.
      split; [apply list_elem_of_In, Hu|].
      apply andb_true_iff. split.
      + destruct (fetch u); [contradiction | reflexivity].
      + apply orb_true_iff. destruct Hr as [-> | [e ->]];
          [right | left]; reflexivity. }
  pose proof (main_cases args) as Hm.
  destruct (read_urls _ _) as [[|u targets]|].
  - rewrite Hm. split.
    + split; [discriminate|].
      intros [[=] | (targets & [= <-] & x & Hx & _)]. inversion Hx.
    + intros code. split; [intros [= <-]; split; reflexivity|].
      intros [-> _]. reflexivity.
  - destruct (loop_raises args (u :: targets)) eqn:Hp.
    + rewrite Hm. split.
      * split; [intros _ | reflexivity]. right. exists (u :: targets).
        split; [reflexivity|]. apply Hloop, Hp.
      * intros code. split; [discriminate | intros [_ [=]]].
    + destruct Hm as (st & rep & _ & _ & _ & ->). split.
      * split; [discriminate|].
        intros [[=] | (targets' & [= <-] & Hx)].
        apply Hloop in Hx. rewrite Hx in Hp. discriminate Hp.
      * intros code. split; [discriminate | intros [_ [=]]].
  - rewrite Hm. split.
    + split; [intros _; left; reflexivity | reflexivity].
    + intros code. split; [discriminate | intros [_ [=]]].
Qed.

(** X16.  The report that [main] writes has, after its header, exactly one
    row for each target, in the order of the targets, with the url, its
    domain and the number of names of that page; the note of a row is
    [ok] exactly when that number is positive. *)
Theorem main_report_one_row_per_target (args : Args)
    (out : str * list (list cell)) (path : str) (rows : list (list cell)) :
  main args = Some (Wrote out (Some (path, rows))) ->
  exists targets st,
    read_urls (default [] (args_urls args)) (Some (args_urls_file args))
    = Some targets
    /\ args_report args = Some path
    /\ rows = report_file_rows st
    /\ map (fun '(u, d, _, count, _) => (u, d, count)) (report_rows st)
       = map (fun u => (u, domain u, length (page_names u))) targets
    /\ Forall (fun '(_, _, _, count, note) => note = lit "ok" <-> 0 < count)
         (report_rows st).
Proof.
  pose proof (main_cases args) as Hm.
  destruct (read_urls _ _) as [[|u targets]|];
    [rewrite Hm; discriminate | | rewrite Hm; discriminate].
  destruct (loop_raises args (u :: targets)); [rewrite Hm; discriminate|].
  destruct Hm as (st & rep & Hst & Hrep & Hok & ->).
  destruct (args_report args) as [path'|]; [|discriminate].
  destruct (truthy path'); [|discriminate].
  intros [= _ <- <-].
  exists (u :: targets), (finish args st).
  rewrite report_rows_finish, Hst. cbn [report_rows].
  repeat split; assumption.
Qed.

(** X17.  Without [--source-column], the names that [main] writes after
    the header are the names of the pages of the targets, in the order of
    the targets, de-duplicated across the pages by
    [dedupe_preserve_order] unless [--keep-duplicates] is given; so
    [--keep-duplicates] only keeps the repetitions between pages, never
    within one. *)
Theorem main_names (args : Args) (path : str) (rows : list (list cell))
    (report : option (str * list (list cell))) :
  args_source_column args = false ->
  main args = Some (Wrote (path, rows) report) ->
  exists targets,
    read_urls (default [] (args_urls args)) (Some (args_urls_file args))
    = Some targets
    /\ rows
       = [Text (lit "company_name")]
         :: map (fun n => [Text n])
              (if args_keep_duplicates args
               then concat (map page_names targets)
               else dedupe_preserve_order (concat (map page_names targets))).
Proof.
  intros Hsc. pose proof (main_cases args) as Hm.
  destruct (read_urls _ _) as [[|u targets]|];
    [rewrite Hm; discriminate | | rewrite Hm; discriminate].
  destruct (loop_raises args (u :: targets)); [rewrite Hm; discriminate|].
  destruct Hm as (st & rep & Hst & _ & _ & ->).
  intros [= _ <- _]. exists (u :: targets). split; [reflexivity|].
  unfold out_rows, finish. rewrite Hsc, Hst, Hsc.
  destruct (args_keep_duplicates args); reflexivity.
Qed.

(** X18.  With [--source-column], the rows that [main] writes after the
    header carry the same names, in the same order, as the names written
    without it, and each row is a name of the page of a target with the
    source of that page and the url of that target. *)
Theorem main_names_with_source (args : Args) (path : str)
    (rows : list (list cell)) (report : option (str * list (list cell))) :
  args_source_column args = true ->
  main args = Some (Wrote (path, rows) report) ->
  exists targets (named : list (str * str * str)),
    read_urls (default [] (args_urls args)) (Some (args_urls_file args))
    = Some targets
    /\ rows
       = map Text [lit "company_name"; lit "source"; lit "from_url"]
         :: map (fun '(n, src, url) => [Text n; Text src; Text url]) named
    /\ map (fun r => fst (fst r)) named
       = (if args_keep_duplicates args
          then concat (map page_names targets)
          else dedupe_preserve_order (concat (map page_names targets)))
    /\ Forall (fun '(n, src, url) =>
                 url ∈ targets /\ n ∈ page_names url
                 /\ src = page_source url) named.
Proof.
  intros Hsc. pose proof (main_cases args) as Hm.
  destruct (read_urls _ _) as [[|u targets]|];
    [rewrite Hm; discriminate | | rewrite Hm; discriminate].
  destruct (loop_raises args (u :: targets)); [rewrite Hm; discriminate|].
  destruct Hm as (st & rep & Hst & _ & _ & ->).
  intros [= _ <- _].
  assert (forall r, r ∈ concat (map page_rows (u :: targets)) ->
            let '(n, src, url) := r in
            url ∈ u :: targets /\ n ∈ page_names url
            /\ src = page_source url) as Hrows.
  { intros r Hr%list_elem_of_In. apply in_concat in Hr as (l & Hl & Hr).
    apply list_elem_of_In, list_elem_of_fmap in Hl as (x & -> & Hx).
    apply list_elem_of_In in Hr. unfold page_rows in Hr.
    apply list_elem_of_fmap in Hr as (n & -> & Hn). repeat split; assumption. }
  exists (u :: targets), (enriched_rows (finish args st)).
  split; [reflexivity|]. split; [unfold out_rows; rewrite Hsc; reflexivity|].
  unfold finish. rewrite Hsc, Hst, Hsc. cbn [enriched_rows].
  destruct (args_keep_duplicates args); cbn [negb enriched_rows].
  - split; [apply names_of_page_rows|].
    apply Forall_forall. exact Hrows.
  - split.
    + rewrite (dedupe_rows_names _ _ _ (page_rows_stripped (u :: targets))).
      rewrite names_of_page_rows, dedupe_kept. reflexivity.
    + apply Forall_forall. intros r [Hr | Hr]%dedupe_rows_elem;
        [inversion Hr | exact (Hrows r Hr)].
Qed.

End Main.

(** ** The dispatcher on remote urls *)

Lemma contains_after_www (p d : str) (c : ascii) (p' : str) :
  p = c :: p' -> c <> "w"%char -> c <> "."%char ->
  startswith (lit "www.") d = true ->
  contains p (drop 4 d) = contains p d.
Proof.
  intros -> Hw Hd Hs.
  destruct d as [|a1 [|a2 [|a3 [|a4 d]]]];
    cbn [lit list_ascii_of_string startswith] in Hs;
    rewrite ?andb_false_r in Hs; try discriminate Hs.
  repeat (apply andb_true_iff in Hs as [?%Ascii.eqb_eq Hs]). subst.
  apply Ascii.eqb_neq in Hw, Hd.
  cbn [drop contains startswith]. rewrite Hw, Hd. reflexivity.
Qed.

Lemma lower_char_idem c : lower_char (lower_char c) = lower_char c.
Proof. destruct c as [[] [] [] [] [] [] [] []]; reflexivity. Qed.

Lemma lower_idem s : lower (lower s) = lower s.
Proof.
  induction s as [|c s IH]; [reflexivity|].
  cbn [lower map]. rewrite lower_char_idem. f_equal. exact IH.
Qed.

Lemma length_lower s : length (lower s) = length s.
Proof. apply length_map. Qed.

Section RemoteDispatch.
Context {doc elem : Type} `{!Soup doc elem} `{!Host}.

(** X19.  For a url [http://host...] or [https://host...] with a host as
    in X9, the dispatcher chooses by the host alone, whatever the markup:
    the Indeed extractor when the host holds [indeed] in any case, else the
    LinkedIn extractor when it holds [linkedin], else the generic one. *)
Theorem remote_dispatch_by_host (scheme host tail html : str) :
  scheme = lit "http" \/ scheme = lit "https" ->
  forallb host_char host = true ->
  tail = [] \/ (exists c t, tail = c :: t /\ char_in (lit "/?#") c = true) ->
  extract_company_names (scheme ++ lit "://" ++ host ++ tail) html
  = (if contains (lit "indeed") (lower host) then extract_from_indeed html
     else if contains (lit "linkedin") (lower host)
     then extract_from_linkedin html (scheme ++ lit "://" ++ host ++ tail)
     else extract_generic html).
Proof.
  intros Hs Hh Ht. unfold extract_company_names, domain.
  rewrite (netloc_of_host scheme host tail Hs Hh Ht).
  cbn [bind try_except].
  assert (is_local_path (scheme ++ lit "://" ++ host ++ tail) = false) as ->
    by (destruct Hs as [-> | ->]; reflexivity).
  destruct (startswith (lit "www.") (lower host)) eqn:Hw.
  - rewrite (contains_after_www (lit "indeed") (lower host) "i" (lit "ndeed"))
      by (reflexivity || discriminate || exact Hw).
    rewrite (contains_after_www (lit "linkedin") (lower host) "l"
               (lit "inkedin"))
      by (reflexivity || discriminate || exact Hw).
    reflexivity.
  - reflexivity.
Qed.

End RemoteDispatch.

(** X20.  For a name over code points below 256, as all the strings
    here, on which [str.lower] keeps the length: the noise classifier
    looks at the name up to case and up to the whitespace around it. *)
Theorem looks_like_noise_up_to_case (n : str) :
  looks_like_noise (lower n) = looks_like_noise n
  /\ looks_like_noise (strip n) = looks_like_noise n.
Proof.
  split.
  - unfold looks_like_noise.
    rewrite <- lower_strip, lower_idem, length_lower. reflexivity.
  - unfold looks_like_noise. rewrite strip_idem. reflexivity.
Qed.

(** ** Examples for the further properties *)

(** X3, at a search page of LinkedIn with one result card. *)
Lemma extract_company_names_clean_witness :
  let sp := fixture_soup [(results_markup, results_page)] in
  let h := fixture_host [] false in
  let url := lit "https://www.linkedin.com/jobs/search?keywords=machinist" in
  @extract_company_names _ _ sp h url (lit results_markup)
  = Ok ([lit "Acme Corp"], linkedin_list)
  /\ normalized (lit "Acme Corp")
  /\ lit "Acme Corp" <> []
  /\ strip (lit "Acme Corp") = lit "Acme Corp"
  /\ looks_like_noise (lit "Acme Corp") = false.
Proof.
  intros sp h url.
  assert (@extract_company_names _ _ sp h url (lit results_markup)
          = Ok ([lit "Acme Corp"], linkedin_list)) as E
    by (vm_compute; reflexivity).
  split; [exact E|].
  apply (@extract_company_names_clean _ _ sp h url _ _ _ E). left.
Defined.

(** X4, at the same page, whose title ends with the name of the site. *)
Lemma linkedin_names_never_the_brand_witness :
  let sp := fixture_soup [(results_markup, results_page)] in
  let h := fixture_host [] false in
  let url := lit "https://www.linkedin.com/jobs/search?keywords=machinist" in
  @extract_company_names _ _ sp h url (lit results_markup)
  = Ok ([lit "Acme Corp"], linkedin_list)
  /\ lower (lit "Acme Corp") <> lit "linkedin".
Proof.
  intros sp h url.
  assert (@extract_company_names _ _ sp h url (lit results_markup)
          = Ok ([lit "Acme Corp"], linkedin_list)) as E
    by (vm_compute; reflexivity).
  split; [exact E|].
  apply (@linkedin_names_never_the_brand _ _ sp h url _ _ _ E);
    [left; reflexivity | left].
Defined.

(** X5, at the same page. *)
Lemma linkedin_list_label_meaning_witness :
  let sp := fixture_soup [(results_markup, results_page)] in
  let h := fixture_host [] false in
  let url := lit "https://www.linkedin.com/jobs/search?keywords=machinist" in
  let html := lit results_markup in
  @extract_company_names _ _ sp h url html
  = Ok ([lit "Acme Corp"], linkedin_list)
  /\ @is_linkedin_search_page h url html = true
  /\ exists soup,
       BeautifulSoup (Soup := sp) html = Ok soup
       /\ [lit "Acme Corp"]
          = dedupe_preserve_order (@linkedin_jobs_list_names _ _ sp soup).
Proof.
  intros sp h url html.
  assert (@extract_company_names _ _ sp h url html
          = Ok ([lit "Acme Corp"], linkedin_list)) as E
    by (vm_compute; reflexivity).
  split; [exact E|].
  destruct (@linkedin_list_label_meaning _ _ sp h url html _ E)
    as (Hp & Hn & _).
  split; assumption.
Defined.

(** X6, at the same page: one name for one entry. *)
Lemma linkedin_list_at_most_one_per_entry_witness :
  let sp := fixture_soup [(results_markup, results_page)] in
  let h := fixture_host [] false in
  let url := lit "https://www.linkedin.com/jobs/search?keywords=machinist" in
  let html := lit results_markup in
  @extract_company_names _ _ sp h url html
  = Ok ([lit "Acme Corp"], linkedin_list)
  /\ exists soup,
       BeautifulSoup (Soup := sp) html = Ok soup
       /\ length [lit "Acme Corp"]
          <= length (soup_select (Soup := sp) soup
                       (lit "ul.jobs-search__results-list li")).
Proof.
  intros sp h url html.
  assert (@extract_company_names _ _ sp h url html
          = Ok ([lit "Acme Corp"], linkedin_list)) as E
    by (vm_compute; reflexivity).
  split; [exact E|].
  exact (@linkedin_list_at_most_one_per_entry _ _ sp h url html _ E).
Defined.

(** X7, at a job page of Indeed. *)
Lemma extract_company_names_cascade_order_witness :
  let sp := fixture_soup [(company_markup, company_page)] in
  let h := fixture_host [] false in
  let url := lit "https://www.indeed.com/viewjob?jk=1" in
  let html := lit company_markup in
  @extract_company_names _ _ sp h url html = Ok ([lit "Acme Corp"], indeed)
  /\ exists soup,
       BeautifulSoup (Soup := sp) html = Ok soup
       /\ exists cands,
            @indeed_names _ _ sp soup = Ok cands
            /\ sublist [lit "Acme Corp"] cands.
Proof.
  intros sp h url html.
  assert (@extract_company_names _ _ sp h url html
          = Ok ([lit "Acme Corp"], indeed)) as E
    by (vm_compute; reflexivity).
  split; [exact E|].
  exact (@extract_company_names_cascade_order _ _ sp h url html _ _ E).
Defined.

(** X8, at a page with the title [Acme Corp - Globex Inc]. *)
Lemma generic_names_from_title_segments_witness :
  let url := lit "https://example.com/careers/42" in
  let html := lit (title_markup sample_title) in
  @extract_company_names _ _ sample_soup sample_host url html
  = Ok ([lit "Acme Corp"; lit "Globex Inc"], generic)
  /\ exists soup p,
       BeautifulSoup (Soup := sample_soup) html = Ok soup
       /\ p ∈ title_segments (@title_text _ _ sample_soup soup)
       /\ Re.search Pat.job_vocabulary p = false
       /\ lit "Globex Inc" = clean_company_name p.
Proof.
  intros url html.
  assert (@extract_company_names _ _ sample_soup sample_host url html
          = Ok ([lit "Acme Corp"; lit "Globex Inc"], generic)) as E
    by (vm_compute; reflexivity).
  split; [exact E|].
  destruct (@generic_names_from_title_segments _ _ sample_soup sample_host
              url html _ E) as (soup & Hdoc & Hn & _).
  destruct (Hn (lit "Globex Inc")) as (p & Hp & _ & Hv & Hc);
    [right; left|].
  exists soup, p. split; [exact Hdoc|].
  split; [exact Hp|]. split; [exact Hv | exact Hc].
Defined.

(** X9, at a host written with capitals and a leading [www.]. *)
Lemma domain_of_remote_url_witness :
  let h := fixture_host [] false in
  @domain h (lit "https://WWW.Acme-Corp.com/careers?page=2")
  = lit "acme-corp.com"
  /\ @is_local_path h (lit "https://WWW.Acme-Corp.com/careers?page=2")
     = false.
Proof.
  intros h.
  apply (@domain_of_remote_url h (lit "https") (lit "WWW.Acme-Corp.com")
           (lit "/careers?page=2"));
    [right; reflexivity | reflexivity |].
  right. eexists _, _. split; reflexivity.
Defined.

(** X11, at a command line with a blank and a quoted path, and a file of
    urls that names the same path and one url twice. *)
Lemma read_urls_distinct_targets_witness :
  let urls := [lit "  "; lit "'/srv/saved/acme.html'"] in
  @read_urls sample_host sample_files urls (Some (lit "input.txt"))
  = Some [lit "/srv/saved/acme.html"; lit "https://example.com/careers/42"]
  /\ exists entries : list str,
       [lit "/srv/saved/acme.html"; lit "https://example.com/careers/42"]
       = map (fun e => fst (@norm_key sample_host sample_files e)) entries
       /\ NoDup
            (map (fun e => snd (@norm_key sample_host sample_files e))
               entries).
Proof.
  intros urls.
  assert (@read_urls sample_host sample_files urls (Some (lit "input.txt"))
          = Some [lit "/srv/saved/acme.html";
                  lit "https://example.com/careers/42"]) as E
    by (vm_compute; reflexivity).
  split; [exact E|].
  destruct (@read_urls_distinct_targets sample_host sample_files urls _ _ E)
    as (entries & Hout & _ & Hnd & _).
  exists entries. split; assumption.
Defined.

(** X12, at the same command line and file. *)
Lemma read_urls_file_appends_witness :
  let urls := [lit "  "; lit "'/srv/saved/acme.html'"] in
  @read_urls sample_host sample_files urls (Some (lit "input.txt"))
  = Some [lit "/srv/saved/acme.html"; lit "https://example.com/careers/42"]
  /\ exists first more : list str,
       @read_urls sample_host sample_files urls None = Some first
       /\ [lit "/srv/saved/acme.html"; lit "https://example.com/careers/42"]
          = first ++ more.
Proof.
  intros urls.
  assert (@read_urls sample_host sample_files urls (Some (lit "input.txt"))
          = Some [lit "/srv/saved/acme.html";
                  lit "https://example.com/careers/42"]) as E
    by (vm_compute; reflexivity).
  split; [exact E|].
  exact (@read_urls_file_appends sample_host sample_files urls _ _ E).
Defined.

(** X13, at one url given three times, in capitals and quoted. *)
Lemma read_urls_remote_up_to_case_witness :
  let h := fixture_host [] false in
  let f := fixture_files [] [] in
  let urls := [lit "https://example.com/careers/42";
               lit " 'HTTPS://EXAMPLE.COM/careers/42' ";
               lit "https://example.com/Careers/42"] in
  @read_urls h f urls None = Some [lit "https://example.com/careers/42"]
  /\ sublist [lit "https://example.com/careers/42"] (map unquote urls)
  /\ NoDup (map lower [lit "https://example.com/careers/42"]).
Proof.
  intros h f urls.
  assert (@read_urls h f urls None
          = Some [lit "https://example.com/careers/42"]) as E
    by (vm_compute; reflexivity).
  split; [exact E|].
  assert (Forall (fun u => contains (lit "://") (unquote u) = true) urls)
    as Hr by (repeat (constructor; [vm_compute; reflexivity|]); constructor).
  destruct (@read_urls_remote_up_to_case h f urls _ Hr E) as (Hs & Hn & _).
  split; assumption.
Defined.

(** X14, at the page saved on the disk of the examples. *)
Lemma fetch_reads_the_path_witness :
  let p := lit "/srv/saved/acme.html" in
  contains (lit "file://") p = false
  /\ @is_local_path sample_host p = true
  /\ @fetch sample_host sample_files (lit "file://" ++ p)
     = default [] (read_text (Files := sample_files) p)
  /\ @fetch sample_host sample_files p
     = default [] (read_text (Files := sample_files) p).
Proof.
  intros p.
  assert (contains (lit "file://") p = false) as Hc by reflexivity.
  assert (@is_local_path sample_host p = true) as Hl
    by (vm_compute; reflexivity).
  destruct (@fetch_reads_the_path sample_host sample_files p Hc) as [E1 E2].
  split; [exact Hc|]. split; [exact Hl|].
  split; [exact E1 | exact (E2 Hl)].
Defined.

(** X16, at the run of the examples: two targets, two rows. *)
Lemma main_report_one_row_per_target_witness :
  exists targets st,
    @read_urls sample_host sample_files [] (Some (lit "input.txt"))
    = Some targets
    /\ written_report
         (@main _ _ sample_soup sample_host sample_files
            (sample_args false false))
       = report_file_rows st
    /\ map (fun '(u, d, _, count, _) => (u, d, count)) (report_rows st)
       = map (fun u =>
                (u, @domain sample_host u,
                 length (@page_names _ _ sample_soup sample_host
                           sample_files u)))
           targets.
Proof.
  destruct (@main _ _ sample_soup sample_host sample_files
              (sample_args false false))
    as [[code | out [[path rows]|]]|] eqn:E;
    try (exfalso; vm_compute in E; discriminate E).
  destruct (@main_report_one_row_per_target _ _ sample_soup sample_host
              sample_files _ _ _ _ E)
    as (targets & st & Ht & _ & Hr & Hm & _).
  exists targets, st. split; [exact Ht|]. split; [exact Hr | exact Hm].
Defined.

(** X17, at the run of the examples with [--keep-duplicates]: the name
    that both pages give is written twice. *)
Lemma main_names_witness :
  exists targets,
    @read_urls sample_host sample_files [] (Some (lit "input.txt"))
    = Some targets
    /\ written_rows
         (@main _ _ sample_soup sample_host sample_files
            (sample_args true false))
       = [Text (lit "company_name")]
         :: map (fun n => [Text n])
              (concat
                 (map (@page_names _ _ sample_soup sample_host sample_files)
                    targets)).
Proof.
  destruct (@main _ _ sample_soup sample_host sample_files
              (sample_args true false))
    as [[code | [path rows] report]|] eqn:E;
    try (exfalso; vm_compute in E; discriminate E).
  exact (@main_names _ _ sample_soup sample_host sample_files
           (sample_args true false) _ _ _ eq_refl E).
Defined.

(** X18, at the run of the examples with [--source-column]. *)
Lemma main_names_with_source_witness :
  exists targets (named : list (str * str * str)),
    @read_urls sample_host sample_files [] (Some (lit "input.txt"))
    = Some targets
    /\ written_rows
         (@main _ _ sample_soup sample_host sample_files
            (sample_args false true))
       = map Text [lit "company_name"; lit "source"; lit "from_url"]
         :: map (fun '(n, src, url) => [Text n; Text src; Text url]) named
    /\ map (fun r => fst (fst r)) named
       = dedupe_preserve_order
           (concat
              (map (@page_names _ _ sample_soup sample_host sample_files)
                 targets)).
Proof.
  destruct (@main _ _ sample_soup sample_host sample_files
              (sample_args false true))
    as [[code | [path rows] report]|] eqn:E;
    try (exfalso; vm_compute in E; discriminate E).
  destruct (@main_names_with_source _ _ sample_soup sample_host sample_files
              (sample_args false true) _ _ _ eq_refl E)
    as (targets & named & Ht & Hr & Hn & _).
  exists targets, named. split; [exact Ht|]. split; [exact Hr | exact Hn].
Defined.

(** X19, at a host of Indeed under a name of LinkedIn, with the markup of a
    search page of LinkedIn. *)
Lemma remote_dispatch_by_host_witness :
  let sp := fixture_soup [(results_markup, results_page)] in
  let h := fixture_host [] false in
  let url := lit "https://indeed.linkedin.com/jobs/search?keywords=machinist" in
  @extract_company_names _ _ sp h url (lit results_markup)
  = @extract_from_indeed _ _ sp (lit results_markup).
Proof.
  intros sp h url.
  apply (@remote_dispatch_by_host _ _ sp h (lit "https")
           (lit "indeed.linkedin.com") (lit "/jobs/search?keywords=machinist"));
    [right; reflexivity | reflexivity |].
  right. eexists _, _. split; reflexivity.
Defined.
